(** * DS.EmbeddedRecordsMixin: embedded has-many records of the ActiveModel adapter

    A shallow embedding of
    [packages/activemodel-adapter/lib/system/embedded_records_mixin.js]:
    the outbound [serializeHasMany], the inbound [extractSingle] and
    [extractArray], and the recursive helper [updatePayloadWithEmbedded],
    together with the serializer's [clientIdMap].

    JavaScript objects are association lists in insertion order, own
    properties only (the prototype chain is not modelled); numbers are the
    integers.  Mutation in place is explicit state passing: the payload, the
    [clientIdMap] of every serializer instance and the calls made into the
    store are threaded through the pass; a payload node that is mutated is
    returned to its caller.  An exception is the outcome [Fail Thrown]; the
    recursion of the pass is bounded by a fuel argument, and
    [updatePayloadWithEmbedded_bounded] shows that fuel above the depth of the
    payload node is enough.

    Where the model stops short of JavaScript.  The [clientIdMap] is the
    plain object of line 52, and [clientIdMap[clientId]] also finds what
    every object inherits: for a placeholder such as [constructor] the code
    finds a function, takes it for the record and throws at line 173, where
    the model finds no own key and sideloads.  [inheritedName] lists these
    names.  For a placeholder outside the list that is looked up in a map
    keyed by guids, as [createClientId] builds it, the lookup of the model is
    the lookup of the code; the statements of the last part of this file
    about the children of one relation are made under these two conditions.
    A payload node that is a string, a number, a boolean or an array, and a
    relation value that is truthy and no array, end in [Fail Unsupported];
    a number is printed in decimal when it is used as a key. *)

From Stdlib Require Import Ascii String.
From stdpp Require Import base option list strings pretty gmap.

Set Warnings "-register-all".
Open Scope string_scope.
Open Scope list_scope.

(** ** JavaScript values *)

Inductive value : Type :=
| VUndef
| VNull
| VBool (b : bool)
| VNum (n : Z)
| VStr (s : string)
| VArr (l : list value)
| VObj (o : list (string * value)).

Abbreviation obj := (list (string * value)).

(** [ToBoolean]. *)
Definition truthy (v : value) : bool :=
  match v with
  | VUndef | VNull => false
  | VBool b => b
  | VNum n => negb (n =? 0)%Z
  | VStr s => negb (String.eqb s "")
  | VArr _ | VObj _ => true
  end.

(** [v === 'lit'] for a string literal. *)
Definition strict_eq_str (v : value) (lit : string) : bool :=
  match v with
  | VStr s => String.eqb s lit
  | _ => false
  end.

(** [o[k]] on an object: the own property, [undefined] when absent. *)
Fixpoint getField (o : obj) (k : string) : value :=
  match o with
  | [] => VUndef
  | (k', v) :: o' => if String.eqb k k' then v else getField o' k
  end.

(** [o[k] = v]: an existing key keeps its place, a new one goes last. *)
Fixpoint setField (k : string) (v : value) (o : obj) : obj :=
  match o with
  | [] => [(k, v)]
  | (k', v') :: o' =>
      if String.eqb k k' then (k, v) :: o' else (k', v') :: setField k v o'
  end.

(** [delete o[k]]. *)
Fixpoint delField (k : string) (o : obj) : obj :=
  match o with
  | [] => []
  | (k', v') :: o' =>
      if String.eqb k k' then delField k o' else (k', v') :: delField k o'
  end.

Definition hasField (o : obj) (k : string) : bool :=
  existsb (fun kv => String.eqb k (fst kv)) o.

(** [ToString] of a value used as a property key, as in [clientIdMap[clientId]]. *)
Fixpoint toPropertyKey (v : value) : string :=
  match v with
  | VUndef => "undefined"
  | VNull => "null"
  | VBool true => "true"
  | VBool false => "false"
  | VNum n => pretty n
  | VStr s => s
  | VArr l =>
      (fix join (l : list value) : string :=
         let elem x := match x with
                       | VUndef | VNull => ""
                       | _ => toPropertyKey x
                       end in
         match l with
         | [] => ""
         | [x] => elem x
         | x :: r => elem x +:+ "," +:+ join r
         end) l
  | VObj _ => "[object Object]"
  end.

(** The property names a plain object inherits from [Object.prototype]:
    [o[name]] on [{}] yields a function (the prototype itself for
    [__proto__]) though nothing was stored under the name. *)
Definition inheritedName (k : string) : bool :=
  bool_decide (k ∈ ["constructor"; "toString"; "toLocaleString"; "valueOf";
                    "hasOwnProperty"; "isPrototypeOf"; "propertyIsEnumerable";
                    "__proto__"; "__defineGetter__"; "__defineSetter__";
                    "__lookupGetter__"; "__lookupSetter__"]).

(** Nesting depth of a value; bounds the recursion of the inbound pass. *)
Fixpoint depth (v : value) : nat :=
  match v with
  | VArr l => S (foldr (fun x d => Nat.max (depth x) d) 0 l)
  | VObj o => S (foldr (fun kv d => Nat.max (depth (snd kv)) d) 0 o)
  | _ => 0
  end.

(** ** Outcomes *)

Inductive failure : Type :=
| Thrown         (* a JavaScript exception: a property of undefined, push on what is no
                    array, a type the store does not know *)
| Unsupported    (* a payload node or relation value that is not JSON-shaped as the pass expects *)
| OutOfFuel.     (* the recursion bound of the model was too small *)

Inductive outcome (A : Type) : Type :=
| Done (a : A)
| Fail (f : failure).
Arguments Done {A} a.
Arguments Fail {A} f.

Global Instance outcome_ret : MRet outcome := fun _ a => Done a.
Global Instance outcome_bind : MBind outcome := fun _ _ k m =>
  match m with
  | Done a => k a
  | Fail f => Fail f
  end.

Definition throwing {A} (o : option A) : outcome A :=
  match o with
  | Some a => Done a
  | None => Fail Thrown
  end.

(** [forEach(list, callback)] with the state threaded through the calls. *)
Fixpoint forEach {A S : Type} (callback : A -> S -> outcome S) (l : list A) (s : S)
  : outcome S :=
  match l with
  | [] => Done s
  | x :: r => s' ← callback x s; forEach callback r s'
  end.

(** [v[k]] on any value: reading a property of [undefined] or [null] throws. *)
Definition readProp (v : value) (k : string) : outcome value :=
  match v with
  | VObj o => Done (getField o k)
  | VUndef | VNull => Fail Thrown
  | _ => Fail Unsupported
  end.

(** The embedded relation value, which the pass iterates as an array. *)
Definition asArray (v : value) : outcome (list value) :=
  match v with
  | VArr l => Done l
  | _ => Fail Unsupported
  end.

(** [bucket.push(data)]: only an array has [push]. *)
Definition push (bucket : value) (data : value) : outcome value :=
  match bucket with
  | VArr l => Done (VArr (l ++ [data]))
  | _ => Fail Thrown
  end.

(** ** Types, serializers and the store *)

Inductive kind : Type := belongsTo | hasMany.

Record relationship : Type := {
  rel_key : string;
  rel_kind : kind;
  rel_type : string   (* relationship.type.typeKey *)
}.

Record model : Type := {
  typeKey : string;
  relationships : list relationship   (* in eachRelationship order *)
}.

Record serializer : Type := {
  attrs : option obj;
  primaryKey : string;
  clientIdKey : string;
  keyForAttribute : string -> string;
  keyForRelationship : string -> kind -> string
}.

(** Serializer instances are named by a number: two types that resolve to the
    same instance share its [clientIdMap]. *)
Record environment : Type := {
  serializerFor : string -> option nat;   (* store.serializerFor(typeKey), throws when unknown *)
  instance : nat -> serializer;
  modelFor : string -> option model;      (* store.modelFor(typeKey), throws when unknown *)
  pluralize : string -> string            (* Ember.String.pluralize *)
}.

(** Calls made into the store and the records while reconciling. *)
Inductive store_call : Type :=
| AdapterWillCommit (record : nat)
| DidSaveRecord (record : nat) (data : value).

Record state : Type := {
  payload : obj;
  clientIdMaps : gmap nat (gmap string nat);
  calls : list store_call
}.

Definition with_payload (p : obj) (st : state) : state :=
  {| payload := p; clientIdMaps := clientIdMaps st; calls := calls st |}.

(** ** Inbound: [updatePayloadWithEmbedded] *)

Section Inbound.
Variable E : environment.

(** [config && (config.embedded === 'always' || config.embedded === 'load')] *)
Definition embedded_of (config : value) : value :=
  match config with
  | VObj c => getField c "embedded"
  | _ => VUndef
  end.

Definition loadsEmbedded (config : value) : bool :=
  truthy config &&
  (strict_eq_str (embedded_of config) "always" || strict_eq_str (embedded_of config) "load").

(** ['_' + Ember.String.pluralize(relationship.type.typeKey)] *)
Definition embeddedTypeKey (rel : relationship) : string :=
  "_" +:+ pluralize E (rel_type rel).

(** [payload[embeddedTypeKey] = payload[embeddedTypeKey] || []] *)
Definition ensureBucket (k : string) (p : obj) : obj :=
  let cur := getField p k in
  setField k (if truthy cur then cur else VArr []) p.

Section Callbacks.
(** The recursive call, one level down. *)
Variable recurse : nat -> model -> value -> state -> outcome (value * state).

(** The callback of [forEach(partial[attribute], ...)], lines 162-180.
    [this] is the serializer the pass was called with ([parentSerializer]),
    [child] the serializer of the relationship's type. *)
Definition eachEmbedded (this child : nat) (rel : relationship) (data : value)
    (acc : list value * state) : outcome (list value * state) :=
  let '(ids, st) := acc in
  embeddedType ← throwing (modelFor E (rel_type rel));
  '(data', st1) ← recurse child embeddedType data st;
  id ← readProp data' (primaryKey (instance E child));
  let ids' := ids ++ [id] in
  clientId ← readProp data' (clientIdKey (instance E this));
  clientIdMap ← throwing (clientIdMaps st1 !! this);
  match clientIdMap !! toPropertyKey clientId with
  | Some clientRecord =>
      Done (ids',
            {| payload := payload st1;
               clientIdMaps :=
                 <[this := delete (toPropertyKey clientId) clientIdMap]> (clientIdMaps st1);
               calls := calls st1 ++
                 [AdapterWillCommit clientRecord; DidSaveRecord clientRecord data'] |})
  | None =>
      bucket ← push (getField (payload st1) (embeddedTypeKey rel)) data';
      Done (ids', with_payload (setField (embeddedTypeKey rel) bucket (payload st1)) st1)
  end.

(** The callback of [type.eachRelationship(...)], lines 138-185. *)
Definition eachRelationship (this : nat) (attrs : obj) (rel : relationship)
    (acc : value * state) : outcome (value * state) :=
  let '(partial, st) := acc in
  let config := getField attrs (rel_key rel) in
  child ← throwing (serializerFor E (rel_type rel));
  match rel_kind rel with
  | belongsTo => Done (partial, st)
  | hasMany =>
      if loadsEmbedded config then
        let expandedKey := keyForRelationship (instance E this) (rel_key rel) hasMany in
        let attribute := keyForAttribute (instance E this) (rel_key rel) in
        nested ← readProp partial attribute;
        if truthy nested then
          let st0 := with_payload (ensureBucket (embeddedTypeKey rel) (payload st)) st in
          children ← asArray nested;
          '(ids, st') ← forEach (eachEmbedded this child rel) children ([], st0);
          match partial with
          | VObj o => Done (VObj (delField attribute (setField expandedKey (VArr ids) o)), st')
          | _ => Fail Unsupported
          end
        else Done (partial, st)
      else Done (partial, st)
  end.
End Callbacks.

Fixpoint updatePayloadWithEmbedded (fuel : nat) (this : nat) (type : model)
    (partial : value) (st : state) : outcome (value * state) :=
  match fuel with
  | 0 => Fail OutOfFuel
  | S fuel' =>
      match attrs (instance E this) with
      | None => Done (partial, st)
      | Some a =>
          forEach (eachRelationship (updatePayloadWithEmbedded fuel') this a)
                  (relationships type) (partial, st)
      end
  end.

(** [extractSingle], up to the call of [_super]: the payload handed on. *)
Definition extractSingle_embedded (fuel : nat) (this : nat) (primaryType : model)
    (st : state) : outcome state :=
  let root := keyForAttribute (instance E this) (typeKey primaryType) in
  let partial := getField (payload st) root in
  '(partial', st') ← updatePayloadWithEmbedded fuel this primaryType partial st;
  match partial' with
  | VObj _ => Done (with_payload (setField root partial' (payload st')) st')
  | _ => Done st'
  end.

(** [extractSingle]: [_super] is the base serializer's method. *)
Definition extractSingle {R : Type} (_super : state -> outcome R)
    (fuel : nat) (this : nat) (primaryType : model) (st : state) : outcome R :=
  st' ← extractSingle_embedded fuel this primaryType st;
  _super st'.

(** [extractArray], up to the call of [_super].  The partials are the
    elements the array had when the loop started; what the pass pushed onto
    that same array meanwhile stays behind them. *)
Definition extractArray_embedded (fuel : nat) (this : nat) (type : model)
    (st : state) : outcome state :=
  let root := pluralize E (keyForAttribute (instance E this) (typeKey type)) in
  match getField (payload st) root with
  | VArr partials =>
      '(done, st') ← forEach (fun partial '(done, st) =>
                        '(partial', st') ← updatePayloadWithEmbedded fuel this type partial st;
                        Done (done ++ [partial'], st'))
                      partials ([], st);
      match getField (payload st') root with
      | VArr now =>
          Done (with_payload
                  (setField root (VArr (done ++ drop (length partials) now)) (payload st')) st')
      | _ => Done st'
      end
  | VUndef | VNull => Fail Thrown
  | _ => Fail Unsupported
  end.

Definition extractArray {R : Type} (_super : state -> outcome R)
    (fuel : nat) (this : nat) (type : model) (st : state) : outcome R :=
  st' ← extractArray_embedded fuel this type st;
  _super st'.
End Inbound.

(** ** Outbound: [serializeHasMany] *)

(** A record of the store as the mixin sees it: its identity, the properties
    [get] reads, what [record.serialize()] returns (the record's own
    serializer builds it; a fresh object at every call), and its has-many
    arrays. *)
Inductive record : Type := mkRecord {
  rec_ref : nat;
  rec_props : obj;
  rec_json : obj;
  rec_many : list (string * list record)
}.

(** [Ember.guidFor(record)]: the prefix [ember] and the number the object got
    when it was created; one guid per object. *)
Definition guidFor (ref : nat) : string := "ember" +:+ pretty ref.

Definition createClientId (relation : record) (clientIdMap : gmap string nat)
  : string * gmap string nat :=
  let guid := guidFor (rec_ref relation) in
  (guid, <[guid := rec_ref relation]> clientIdMap).

(** [attrs && attrs[key] && attrs[key].embedded === 'always'] *)
Definition embedAlways (this : serializer) (key : string) : bool :=
  match attrs this with
  | None => false
  | Some a =>
      truthy (getField a key) && strict_eq_str (embedded_of (getField a key)) "always"
  end.

(** The callback of [get(record, key).map(...)], lines 79-92. *)
Definition embedRelation (this : serializer) (relation : record)
    (clientIdMap : gmap string nat) : obj * gmap string nat :=
  let data := rec_json relation in
  let id := getField (rec_props relation) (primaryKey this) in
  if truthy id then
    (setField (primaryKey this) id data, clientIdMap)
  else
    let '(guid, clientIdMap') := createClientId relation clientIdMap in
    (setField (clientIdKey this) (VStr guid) data, clientIdMap').

(** [array.map(callback)] with the [clientIdMap] threaded through the calls. *)
Fixpoint mapRelations (this : serializer) (relations : list record)
    (clientIdMap : gmap string nat) : list value * gmap string nat :=
  match relations with
  | [] => ([], clientIdMap)
  | relation :: rest =>
      let '(data, m1) := embedRelation this relation clientIdMap in
      let '(datas, m2) := mapRelations this rest m1 in
      (VObj data :: datas, m2)
  end.

Fixpoint lookupMany (key : string) (many : list (string * list record))
  : option (list record) :=
  match many with
  | [] => None
  | (k, rs) :: rest => if String.eqb key k then Some rs else lookupMany key rest
  end.

Definition serializeHasMany (this : serializer) (rec : record) (json : obj)
    (rel : relationship) (clientIdMap : gmap string nat)
  : outcome (obj * gmap string nat) :=
  let key := rel_key rel in
  if embedAlways this key then
    relations ← throwing (lookupMany key (rec_many rec));
    let '(datas, clientIdMap') := mapRelations this relations clientIdMap in
    Done (setField (keyForAttribute this key) (VArr datas) json, clientIdMap')
  else Done (json, clientIdMap).

(** What one child contributes, read off [embedRelation]: the object put
    into the array, and the entry the [clientIdMap] gains. *)
Definition lacksId (this : serializer) (relation : record) : bool :=
  negb (truthy (getField (rec_props relation) (primaryKey this))).

Definition embeddedData (this : serializer) (relation : record) : obj :=
  if lacksId this relation then
    setField (clientIdKey this) (VStr (guidFor (rec_ref relation))) (rec_json relation)
  else
    setField (primaryKey this) (getField (rec_props relation) (primaryKey this))
             (rec_json relation).

Definition notePlaceholder (this : serializer) (clientIdMap : gmap string nat)
    (relation : record) : gmap string nat :=
  if lacksId this relation then
    <[guidFor (rec_ref relation) := rec_ref relation]> clientIdMap
  else clientIdMap.

(** ** The serializers and models of the integration tests *)

Definition isUpper (c : ascii) : bool :=
  Nat.leb 65 (nat_of_ascii c) && Nat.leb (nat_of_ascii c) 90.

Definition isLowerOrDigit (c : ascii) : bool :=
  (Nat.leb 97 (nat_of_ascii c) && Nat.leb (nat_of_ascii c) 122) ||
  (Nat.leb 48 (nat_of_ascii c) && Nat.leb (nat_of_ascii c) 57).

Definition toLower (c : ascii) : ascii :=
  if isUpper c then ascii_of_nat (nat_of_ascii c + 32) else c.

Fixpoint decamelize_from (prev : option ascii) (s : string) : string :=
  match s with
  | EmptyString => EmptyString
  | String c r =>
      let rest := String (toLower c) (decamelize_from (Some c) r) in
      match prev with
      | Some p => if isLowerOrDigit p && isUpper c then String "_"%char rest else rest
      | None => rest
      end
  end.

(** Modelled from the spec: the external-field-name transform (section 6,
    collaborator 2) is not part of the mixin.  This is
    [Ember.String.decamelize]: an underscore between a lower-case letter or
    digit and the capital that follows it, then lower case. *)
Definition decamelize (s : string) : string := decamelize_from None s.

(** Modelled from the spec: the inflector is not part of the mixin; these are
    its regular rule and the one irregular noun the tests use. *)
Definition testPluralize (s : string) : string :=
  if String.eqb s "child" then "children" else s +:+ "s".

Fixpoint dropLastS (s : string) : string :=
  match s with
  | EmptyString => EmptyString
  | String c EmptyString => if Ascii.eqb c "s"%char then EmptyString else s
  | String c r => String c (dropLastS r)
  end.

Definition testSingularize (s : string) : string :=
  if String.eqb s "children" then "child" else dropLastS s.

(** Modelled from the spec: [DS.ActiveModelSerializer] with the mixin, as the
    tests register it; its key functions are the ones of the ActiveModel
    naming convention ([villains] is sent as [villains] and its ids as
    [villain_ids]). *)
Definition activeModelSerializer (attrs : option obj) : serializer :=
  {| attrs := attrs;
     primaryKey := "id";
     clientIdKey := "_clientId";
     keyForAttribute := decamelize;
     keyForRelationship := fun key kind =>
       match kind with
       | belongsTo => decamelize key +:+ "_id"
       | hasMany => testSingularize (decamelize key) +:+ "_ids"
       end |}.

Definition embeddedAlways (key : string) : obj :=
  [(key, VObj [("embedded", VStr "always")])].

Definition HomePlanet : model :=
  {| typeKey := "homePlanet";
     relationships :=
       [ {| rel_key := "villains"; rel_kind := hasMany; rel_type := "superVillain" |} ] |}.

Definition SuperVillain : model :=
  {| typeKey := "superVillain";
     relationships :=
       [ {| rel_key := "homePlanet"; rel_kind := belongsTo; rel_type := "homePlanet" |};
         {| rel_key := "evilMinions"; rel_kind := hasMany; rel_type := "evilMinion" |} ] |}.

Definition EvilMinion : model :=
  {| typeKey := "evilMinion";
     relationships :=
       [ {| rel_key := "superVillain"; rel_kind := belongsTo; rel_type := "superVillain" |} ] |}.

Definition Comment : model :=
  {| typeKey := "comment";
     relationships :=
       [ {| rel_key := "children"; rel_kind := hasMany; rel_type := "comment" |} ] |}.

(** Instance 0 is [serializer:application], 1 is [serializer:homePlanet]
    with [villains] embedded, 2 is [serializer:comment] with [children]
    embedded. *)
Definition testEnv : environment :=
  {| serializerFor := fun t =>
       if String.eqb t "homePlanet" then Some 1
       else if String.eqb t "comment" then Some 2
       else if String.eqb t "superVillain" || String.eqb t "evilMinion" then Some 0
       else None;
     instance := fun i =>
       match i with
       | 1 => activeModelSerializer (Some (embeddedAlways "villains"))
       | 2 => activeModelSerializer (Some (embeddedAlways "children"))
       | _ => activeModelSerializer None
       end;
     modelFor := fun t =>
       if String.eqb t "homePlanet" then Some HomePlanet
       else if String.eqb t "comment" then Some Comment
       else if String.eqb t "superVillain" then Some SuperVillain
       else if String.eqb t "evilMinion" then Some EvilMinion
       else None;
     pluralize := testPluralize |}.

Definition freshMaps : gmap nat (gmap string nat) :=
  <[0 := ∅]> (<[1 := ∅]> (<[2 := ∅]> ∅)).

Definition villainsRel : relationship :=
  {| rel_key := "villains"; rel_kind := hasMany; rel_type := "superVillain" |}.

(** The records of the test [serialize stores a client id for any new
    embedded object], and the league with a persisted villain. *)
Definition tom : record :=
  {| rec_ref := 7; rec_props := [("firstName", VStr "Tom"); ("lastName", VStr "Dale")];
     rec_json := [("first_name", VStr "Tom"); ("last_name", VStr "Dale");
                  ("home_planet_id", VStr "123")];
     rec_many := [] |}.

Definition yehuda : record :=
  {| rec_ref := 8; rec_props := [("firstName", VStr "Yehuda"); ("lastName", VStr "Katz")];
     rec_json := [("first_name", VStr "Yehuda"); ("last_name", VStr "Katz");
                  ("home_planet_id", VStr "123")];
     rec_many := [] |}.

Definition savedTom : record :=
  {| rec_ref := 9;
     rec_props := [("id", VStr "1"); ("firstName", VStr "Tom"); ("lastName", VStr "Dale")];
     rec_json := [("first_name", VStr "Tom"); ("last_name", VStr "Dale");
                  ("home_planet_id", VStr "123")];
     rec_many := [] |}.

Definition league (villains : list record) : record :=
  {| rec_ref := 6; rec_props := [("id", VStr "123"); ("name", VStr "Villain League")];
     rec_json := [("name", VStr "Villain League")];
     rec_many := [("villains", villains)] |}.


(** A villain as the server echoes it, and the state of [serializer:homePlanet]
    between a save and its response. *)
Definition echoedTom : obj :=
  [("first_name", VStr "Tom"); ("_clientId", VStr "ember7"); ("id", VStr "1")].

Definition unsavedTom : obj :=
  [("first_name", VStr "Tom"); ("_clientId", VStr "ember7")].

Definition pendingTom : state :=
  {| payload := [("home_planet", VObj [("name", VStr "Villain League");
                                       ("villains", VArr [VObj echoedTom])]);
                 ("_superVillains", VArr [])];
     clientIdMaps := <[1 := {["ember7" := 7]}]> freshMaps;
     calls := [] |}.

Definition nothingPending : state :=
  {| payload := [("home_planet", VObj [("name", VStr "Villain League");
                                       ("villains", VArr [VObj unsavedTom])]);
                 ("_superVillains", VArr [])];
     clientIdMaps := freshMaps;
     calls := [] |}.

(** ** The pass in the words of the specification *)

(** Section 4.1, steps 2b and 2c, for one flattened child [d]: when its
    placeholder is a live key of the Reconciliation Map of the serializer
    [this], the entity found there is confirmed with [d] and the entry is
    removed; otherwise [d] is appended to the sideload bucket of its type. *)
Definition settle (E : environment) (this : nat) (rel : relationship)
    (st : state) (d : obj) : state :=
  match clientIdMaps st !! this with
  | None => st
  | Some m =>
      let k := toPropertyKey (getField d (clientIdKey (instance E this))) in
      match m !! k with
      | Some r =>
          {| payload := payload st;
             clientIdMaps := <[this := delete k m]> (clientIdMaps st);
             calls := calls st ++ [AdapterWillCommit r; DidSaveRecord r (VObj d)] |}
      | None =>
          match getField (payload st) (embeddedTypeKey E rel) with
          | VArr b =>
              with_payload
                (setField (embeddedTypeKey E rel) (VArr (b ++ [VObj d])) (payload st)) st
          | _ => st
          end
      end
  end.

(** The state a relation's children can be settled in: the serializer has a
    [clientIdMap] and the bucket of the relation's type is an array. *)
Definition ready (E : environment) (this : nat) (rel : relationship) (st : state) : bool :=
  match clientIdMaps st !! this, getField (payload st) (embeddedTypeKey E rel) with
  | Some _, VArr _ => true
  | _, _ => false
  end.

(** A relationship the pass returns from at once: another kind than
    [hasMany], or not configured as embedded. *)
Definition inert (E : environment) (a : obj) (rel : relationship) : bool :=
  match serializerFor E (rel_type rel) with
  | None => false
  | Some _ =>
      match rel_kind rel with
      | belongsTo => true
      | hasMany => negb (loadsEmbedded (getField a (rel_key rel)))
      end
  end.

Definition fieldsOf (v : value) : obj :=
  match v with
  | VObj o => o
  | _ => []
  end.

(** Three villains as a response embeds them. *)
Definition threeVillains : list value :=
  [VObj [("id", VStr "1"); ("first_name", VStr "Tom")];
   VObj [("id", VStr "3"); ("first_name", VStr "Yehuda")];
   VObj [("id", VStr "2"); ("first_name", VStr "Alex")]].

Definition earth : obj :=
  [("id", VStr "1"); ("name", VStr "Earth"); ("villains", VArr threeVillains)].

Definition earthState : state :=
  {| payload := [("home_planet", VObj earth)]; clientIdMaps := freshMaps; calls := [] |}.

(** A response that echoes embedded children: each comes back as it was
    sent, with the identifier the server gave it under the primary key. *)
Definition echo (pk : string) (embedded : list value) (ids : list value) : list value :=
  zip_with (fun d id => VObj (setField pk id (fieldsOf d))) embedded ids.

(** The calls that confirm the records [rs] with the data [ds]. *)
Definition confirmations (ds : list value) (rs : list nat) : list store_call :=
  concat (zip_with (fun d r => [AdapterWillCommit r; DidSaveRecord r d]) ds rs).

(** The payload of the first integration test, and what the embedded pass
    makes of it. *)
Definition umber : state :=
  {| payload :=
       [("home_planet",
         VObj [("id", VStr "1"); ("name", VStr "Umber");
               ("villains", VArr [VObj [("id", VStr "1"); ("first_name", VStr "Tom")]])])];
     clientIdMaps := freshMaps;
     calls := [] |}.

Definition umberEmbedded : obj :=
  [("home_planet", VObj [("id", VStr "1"); ("name", VStr "Umber");
                         ("villain_ids", VArr [VStr "1"])]);
   ("_superVillains", VArr [VObj [("id", VStr "1"); ("first_name", VStr "Tom")]])].

(** The key under which the pass looks a child up in the [clientIdMap]. *)
Definition placeholderOf (E : environment) (this : nat) (d : obj) : string :=
  toPropertyKey (getField d (clientIdKey (instance E this))).

(** The state of [serializer:homePlanet] after the league of two unsaved
    villains was serialized, with the response that echoes them. *)
Definition savedLeague : state :=
  {| payload :=
       [("home_planet",
         VObj [("name", VStr "Villain League");
               ("villains",
                VArr (echo "id"
                        [VObj (rec_json tom ++ [("_clientId", VStr "ember7")]);
                         VObj (rec_json yehuda ++ [("_clientId", VStr "ember8")])]
                        [VStr "1"; VStr "2"]))])];
     clientIdMaps := <[1 := <["ember8" := 8]> (<["ember7" := 7]> ∅)]> freshMaps;
     calls := [] |}.

(** ** A type that embeds itself *)

(** A node of a same-typed tree as a response nests it: its own fields, and
    its children when the relation's field is there. *)
Inductive tree : Type :=
| Node (fields : obj) (children : option (list tree)).

(** The nested payload node: the children under the attribute key [att]. *)
Fixpoint encode (att : string) (t : tree) : value :=
  match t with
  | Node f None => VObj f
  | Node f (Some cs) => VObj (f ++ [(att, VArr (map (encode att) cs))])
  end.





Definition childrenRel : relationship :=
  {| rel_key := "children"; rel_kind := hasMany; rel_type := "comment" |}.

(** The thread of the test [extractSingle with embedded objects inside
    embedded objects of same type]. *)
Definition thread : tree :=
  Node [("id", VStr "1"); ("body", VStr "Hello"); ("root", VBool true)]
    (Some [Node [("id", VStr "2"); ("body", VStr "World"); ("root", VBool false)]
             (Some [Node [("id", VStr "4"); ("body", VStr "Another"); ("root", VBool false)]
                      None]);
           Node [("id", VStr "3"); ("body", VStr "Foo"); ("root", VBool false)] None]).

Definition threadState : state :=
  {| payload := [("comment", encode "children" thread)];
     clientIdMaps := freshMaps;
     calls := [] |}.

(** What the pass guarantees of one call when its recursion bound exceeds
    the depth of the node: it does not stop for lack of fuel, and the node it
    returns is no deeper. *)
Definition bounded (p : value) (out : outcome (value * state)) : Prop :=
  match out with
  | Done (p', _) => (depth p' <= depth p)%nat
  | Fail f => f ≠ OutOfFuel
  end.

(** The serializers of the test [extractSingle with embedded objects inside
    embedded objects]: instance 3 is [serializer:superVillain] with
    [evilMinions] embedded. *)
Definition nestedEnv : environment :=
  {| serializerFor := fun t =>
       if String.eqb t "superVillain" then Some 3 else serializerFor testEnv t;
     instance := fun i =>
       match i with
       | 3 => activeModelSerializer (Some (embeddedAlways "evilMinions"))
       | _ => instance testEnv i
       end;
     modelFor := modelFor testEnv;
     pluralize := testPluralize |}.

Definition umberWithMinions : state :=
  {| payload :=
       [("home_planet",
         VObj [("id", VStr "1"); ("name", VStr "Umber");
               ("villains",
                VArr [VObj [("id", VStr "1"); ("first_name", VStr "Tom");
                            ("last_name", VStr "Dale");
                            ("evil_minions",
                             VArr [VObj [("id", VStr "1"); ("name", VStr "Alex")]])]])])];
     clientIdMaps := <[3 := ∅]> freshMaps;
     calls := [] |}.

Definition twoComments : state :=
  {| payload :=
       [("comments",
         VArr [VObj [("id", VStr "1"); ("body", VStr "Hello"); ("root", VBool true);
                     ("children",
                      VArr [VObj [("id", VStr "2"); ("body", VStr "World");
                                  ("root", VBool false)];
                            VObj [("id", VStr "3"); ("body", VStr "Foo");
                                  ("root", VBool false)]])]])];
     clientIdMaps := freshMaps;
     calls := [] |}.

(** ** What the inbound pass keeps *)

(** One [clientIdMap] per serializer instance, before and after: no instance
    gains or loses its map, and no map gains an entry. *)
Definition drained (ms ms' : gmap nat (gmap string nat)) : Prop :=
  ∀ i, match ms !! i, ms' !! i with
       | Some m, Some m' => m' ⊆ m
       | None, None => True
       | _, _ => False
       end.

(** The top-level keys of the payload, before and after: an array keeps its
    elements in front of what is appended, and a key that does not begin with
    an underscore keeps its value. *)
Definition grown (p p' : obj) (k : string) : Prop :=
  (∀ l, getField p k = VArr l → ∃ l', getField p' k = VArr (l ++ l')) ∧
  ((∀ s, k ≠ "_" +:+ s) → getField p' k = getField p k).

(** The [clientIdMap]s and the calls into the store, before and after: the
    calls made before are the beginning of the calls, and an entry is still
    there, mapping to the same record, unless among the new calls that record
    was saved with a node that carries the entry's placeholder. *)
Definition answered (E : environment) (st st' : state) : Prop :=
  ∃ cs, calls st' = calls st ++ cs ∧
    ∀ i (m : gmap string nat) k r,
      clientIdMaps st !! i = Some m → m !! k = Some r →
      (∃ m' : gmap string nat, clientIdMaps st' !! i = Some m' ∧ m' !! k = Some r) ∨
      (∃ f, DidSaveRecord r (VObj f) ∈ cs ∧ placeholderOf E i f = k).

(** A home planet that also belongs to a galaxy, a type the test store does
    not have. *)
Definition galaxyRel : relationship :=
  {| rel_key := "galaxy"; rel_kind := belongsTo; rel_type := "galaxy" |}.

Definition HomePlanetInGalaxy : model :=
  {| typeKey := "homePlanet"; relationships := [villainsRel; galaxyRel] |}.

(** A response whose embedded array has a hole. *)
Definition umberWithNull : obj :=
  [("id", VStr "1"); ("name", VStr "Umber");
   ("villains", VArr [VObj [("id", VStr "1"); ("first_name", VStr "Tom")]; VNull])].







Definition marsReformed : list value :=
  [VObj [("id", VStr "5"); ("first_name", VStr "Peter")];
   VObj [("id", VStr "6"); ("first_name", VStr "Trek")]].






(** ** What the [clientIdMap] holds *)

(** Every key is the guid of the record it maps to. *)
Definition guidKeyed (m : gmap string nat) : Prop :=
  ∀ k r, m !! k = Some r → k = guidFor r.

(** A villain echoed without the placeholder it was sent with, and a league
    [serializer:homePlanet] has serialized that is waiting for its response. *)
Definition strippedTom : obj := [("first_name", VStr "Tom"); ("id", VStr "1")].

Definition leaguePending : gmap string nat := <["ember8" := 8]> (<["ember7" := 7]> ∅).

Definition loadOnly : obj := [("villains", VObj [("embedded", VStr "load")])].

(** Instance 5 is a [serializer:homePlanet] that embeds [villains] on load
    only. *)
Definition loadEnv : environment :=
  {| serializerFor := fun t =>
       if String.eqb t "homePlanet" then Some 5 else serializerFor testEnv t;
     instance := fun i =>
       match i with
       | 5 => activeModelSerializer (Some loadOnly)
       | _ => instance testEnv i
       end;
     modelFor := modelFor testEnv;
     pluralize := testPluralize |}.

(** A response that embeds a villain the server had already, and then Tom
    as he is echoed, twice. *)
Definition alexSaved : obj := [("id", VStr "5"); ("first_name", VStr "Alex")].

Definition leagueEchoedTwice : obj :=
  [("name", VStr "Villain League");
   ("villains", VArr [VObj alexSaved; VObj echoedTom; VObj echoedTom])].

(** ** The base serializer *)

(** Modelled from the spec: the base serializer's [extractSingle], the
    [_super] of line 108, is not under src/.  Sections 3, 4.1 and 6: it
    decodes the flat root node field by field and ingests the collected
    sideloads, and what normalizing yields is the normalized payload, a root
    flat entity together with, for each type, the sequence of its flat child
    entities.  The per-field decode puts an attribute or a relation that the
    serializer's key functions name otherwise under its own name; a sideload
    bucket is named after its type, without the underscore that keeps it
    apart from the root. *)
Record normalized : Type := {
  entity : value;                          (* the root entity, what [extractSingle] returns *)
  sideloads : list (string * list value)   (* by type, what goes into the store beside it *)
}.

(** Modelled from the spec: one field of the per-field decode, the value
    under the external key [from] moved under the name [to]. *)
Definition rename (from to : string) (node : obj) : obj :=
  if String.eqb from to then node
  else if hasField node from
       then delField from (setField to (getField node from) node)
       else node.

(** Modelled from the spec: the per-field decode of a flat node of [type],
    with the attribute list of its type descriptor (section 3). *)
Definition decode (this : serializer) (attributes : list string) (type : model)
    (node : value) : value :=
  match node with
  | VObj o =>
      let o1 := foldl (fun n key => rename (keyForAttribute this key) key n) o attributes in
      VObj (foldl (fun n rel => rename (keyForRelationship this (rel_key rel) (rel_kind rel))
                                       (rel_key rel) n)
                  o1 (relationships type))
  | _ => node
  end.

(** Modelled from the spec: the ingestion of the collected sideloads, every
    bucket of a known type decoded by the serializer of that type. *)
Definition ingest (E : environment) (attributesOf : string → list string)
    (types : list string) (p : obj) : list (string * list value) :=
  omap (fun kv : string * value =>
          match snd kv with
          | VArr l =>
              t ← List.find (fun t => String.eqb (fst kv) ("_" +:+ pluralize E t)) types;
              T ← modelFor E t;
              s ← serializerFor E t;
              Some (pluralize E t, map (decode (instance E s) (attributesOf t) T) l)
          | _ => None
          end) p.

(** Modelled from the spec: the base [extractSingle], on the payload the
    embedded pass hands on. *)
Definition base_extractSingle (E : environment) (attributesOf : string → list string)
    (types : list string) (this : nat) (primaryType : model) (st : state)
    : outcome normalized :=
  let root := keyForAttribute (instance E this) (typeKey primaryType) in
  Done {| entity := decode (instance E this) (attributesOf (typeKey primaryType)) primaryType
                           (getField (payload st) root);
          sideloads := ingest E attributesOf types (payload st) |}.

(** The attributes of the models of the integration tests, and the types
    the test store knows. *)
Definition testAttributes (t : string) : list string :=
  if String.eqb t "homePlanet" then ["name"]
  else if String.eqb t "superVillain" then ["firstName"; "lastName"]
  else if String.eqb t "evilMinion" then ["name"]
  else if String.eqb t "comment" then ["body"; "root"]
  else [].

Definition testTypes : list string := ["homePlanet"; "superVillain"; "evilMinion"; "comment"].

(** The normalized payload of the first integration test as section 8
    words it. *)
Definition umberNormalized : normalized :=
  {| entity := VObj [("id", VStr "1"); ("name", VStr "Umber"); ("villains", VArr [VStr "1"])];
     sideloads := [("superVillains", [VObj [("id", VStr "1"); ("firstName", VStr "Tom")]])] |}.

(** * Properties *)

(** ** Objects *)

Lemma getField_setField_eq k v o : getField (setField k v o) k = v.
Proof.
  induction o as [|[k' v'] o IH]; simpl.
  - by rewrite String.eqb_refl.
  - destruct (String.eqb k k') eqn:Hk; simpl.
    + by rewrite String.eqb_refl.
    + by rewrite Hk.
Qed.

Lemma getField_setField_ne k k' v o :
  k ≠ k' → getField (setField k v o) k' = getField o k'.
Proof.
  intros Hne. induction o as [|[k0 v0] o IH]; simpl.
  - apply String.eqb_neq in Hne. rewrite String.eqb_sym in Hne. by rewrite Hne.
  - destruct (String.eqb k k0) eqn:Hk; simpl.
    + apply String.eqb_eq in Hk as <-.
      assert (String.eqb k' k = false) as -> by (apply String.eqb_neq; congruence).
      done.
    + by rewrite IH.
Qed.

Lemma getField_delField_eq k o : getField (delField k o) k = VUndef.
Proof.
  induction o as [|[k' v'] o IH]; simpl; [done|].
  destruct (String.eqb k k') eqn:Hk; simpl; [done|]. by rewrite Hk.
Qed.

Lemma getField_delField_ne k k' o :
  k ≠ k' → getField (delField k o) k' = getField o k'.
Proof.
  intros Hne. induction o as [|[k0 v0] o IH]; simpl; [done|].
  destruct (String.eqb k k0) eqn:Hk; simpl.
  - apply String.eqb_eq in Hk as <-.
    assert (String.eqb k' k = false) as -> by (apply String.eqb_neq; congruence).
    done.
  - by rewrite IH.
Qed.

(** ** The outbound embed *)

Lemma guidFor_inj r1 r2 : guidFor r1 = guidFor r2 → r1 = r2.
Proof.
  unfold guidFor. intros H.
  apply (inj (String.append "ember")) in H.
  by apply (inj pretty) in H.
Qed.

Lemma embedRelation_eq this relation m :
  embedRelation this relation m =
    (embeddedData this relation, notePlaceholder this m relation).
Proof.
  unfold embedRelation, embeddedData, notePlaceholder, lacksId, createClientId.
  by destruct (truthy _).
Qed.

Lemma mapRelations_eq this relations : ∀ m,
  mapRelations this relations m =
    (map (fun r => VObj (embeddedData this r)) relations,
     foldl (notePlaceholder this) m relations).
Proof.
  induction relations as [|r rs IH]; intros m; simpl; [done|].
  by rewrite embedRelation_eq, IH.
Qed.

Lemma notePlaceholders_other this relations : ∀ (m : gmap string nat) k,
  (∀ r, r ∈ relations → lacksId this r = true → guidFor (rec_ref r) ≠ k) →
  foldl (notePlaceholder this) m relations !! k = m !! k.
Proof.
  induction relations as [|r rs IH]; intros m k Hk; simpl; [done|].
  rewrite IH by (intros r' Hr'; apply Hk; by right).
  unfold notePlaceholder. destruct (lacksId this r) eqn:Hr; [|done].
  apply lookup_insert_ne. apply Hk; [by left|done].
Qed.

Lemma notePlaceholders_entry this relations : ∀ (m : gmap string nat) r,
  r ∈ relations → lacksId this r = true →
  foldl (notePlaceholder this) m relations !! guidFor (rec_ref r) = Some (rec_ref r).
Proof.
  induction relations as [|r0 rs IH] using rev_ind; intros m r Hin Hr;
    [by inversion Hin|].
  rewrite foldl_app. simpl. unfold notePlaceholder at 1.
  apply elem_of_app in Hin as [Hin|Hin%list_elem_of_singleton].
  - destruct (lacksId this r0); [|by apply IH].
    destruct (decide (guidFor (rec_ref r0) = guidFor (rec_ref r))) as [Hg|Hg].
    + rewrite Hg, lookup_insert_eq. by rewrite (guidFor_inj _ _ Hg).
    + rewrite lookup_insert_ne by done. by apply IH.
  - subst r0. rewrite Hr. apply lookup_insert_eq.
Qed.

Lemma embedAlways_config this key :
  embedAlways this key = true ↔
  ∃ a, attrs this = Some a ∧ embedded_of (getField a key) = VStr "always".
Proof.
  unfold embedAlways. split.
  - destruct (attrs this) as [a|]; [|done]. intros [_ H]%andb_prop.
    exists a; split; [done|].
    destruct (embedded_of (getField a key)); try done.
    simpl in H. by apply String.eqb_eq in H as ->.
  - intros (a & -> & H). rewrite H. simpl.
    destruct (getField a key); try done.
Qed.

(** C10. A has-many relation whose configuration is not ['always'] (no
    [attrs], no entry for the key, or another [embedded] value): the call
    returns with [json] as it was, so the relation's field is not written, and
    with the [clientIdMap] as it was. *)
Theorem serializeHasMany_not_embedded this rec json rel (m : gmap string nat) :
  (∀ a, attrs this = Some a → embedded_of (getField a (rel_key rel)) ≠ VStr "always") →
  serializeHasMany this rec json rel m = Done (json, m).
Proof.
  intros Hno. unfold serializeHasMany.
  destruct (embedAlways this (rel_key rel)) eqn:He; [|done].
  apply embedAlways_config in He as (a & Ha & Hemb). by destruct (Hno a Ha).
Qed.

Lemma serializeHasMany_not_embedded_witness :
  serializeHasMany (activeModelSerializer (Some [("villains", VObj [("embedded", VStr "load")])]))
                   (league [tom]) [("name", VStr "Villain League")] villainsRel ∅
  = Done ([("name", VStr "Villain League")], ∅).
Proof.
  apply serializeHasMany_not_embedded.
  intros a Ha. injection Ha as <-. vm_compute. discriminate.
Defined.

(** C4. Every child of an embedded relation is put into the array, in
    order, with either its identifier or a placeholder.  A child without
    identifier is sent with its guid under [clientIdKey], and the
    [clientIdMap] maps that guid to the child; a child with an identifier is
    sent with it under [primaryKey]; and no key of the [clientIdMap] changes
    but the guids of the children without identifier. *)
Theorem serializeHasMany_placeholders this rec json rel (m : gmap string nat) relations :
  embedAlways this (rel_key rel) = true →
  lookupMany (rel_key rel) (rec_many rec) = Some relations →
  ∃ (datas : list value) (m' : gmap string nat),
    serializeHasMany this rec json rel m =
      Done (setField (keyForAttribute this (rel_key rel)) (VArr datas) json, m') ∧
    length datas = length relations ∧
    (∀ i r, relations !! i = Some r →
       if truthy (getField (rec_props r) (primaryKey this))
       then datas !! i =
              Some (VObj (setField (primaryKey this)
                                   (getField (rec_props r) (primaryKey this)) (rec_json r)))
       else datas !! i =
              Some (VObj (setField (clientIdKey this) (VStr (guidFor (rec_ref r)))
                                   (rec_json r))) ∧
            m' !! guidFor (rec_ref r) = Some (rec_ref r)) ∧
    (∀ k, (∀ r, r ∈ relations →
              truthy (getField (rec_props r) (primaryKey this)) = false →
              guidFor (rec_ref r) ≠ k) →
       m' !! k = m !! k).
Proof.
  intros He Hrel.
  exists (map (fun r => VObj (embeddedData this r)) relations),
         (foldl (notePlaceholder this) m relations).
  split; [|split; [|split]].
  - unfold serializeHasMany. rewrite He, Hrel. simpl.
    by rewrite mapRelations_eq.
  - by rewrite length_map.
  - intros i r Hi. rewrite list_lookup_fmap, Hi. simpl.
    unfold embeddedData, lacksId.
    destruct (truthy (getField (rec_props r) (primaryKey this))) eqn:Hid; [done|].
    split; [done|].
    apply notePlaceholders_entry; [by apply list_elem_of_lookup_2 in Hi|].
    unfold lacksId. by rewrite Hid.
  - intros k Hk. apply notePlaceholders_other.
    intros r Hr Hl. apply Hk; [done|]. unfold lacksId in Hl. by apply negb_true_iff.
Qed.

Lemma serializeHasMany_placeholders_witness :
  ∃ m' : gmap string nat,
    serializeHasMany (activeModelSerializer (Some (embeddedAlways "villains")))
                     (league [tom; savedTom; yehuda]) [("name", VStr "Villain League")]
                     villainsRel ∅ =
      Done ([("name", VStr "Villain League");
             ("villains",
              VArr [VObj (rec_json tom ++ [("_clientId", VStr "ember7")]);
                    VObj (rec_json savedTom ++ [("id", VStr "1")]);
                    VObj (rec_json yehuda ++ [("_clientId", VStr "ember8")])])], m') ∧
    m' !! "ember7" = Some 7 ∧ m' !! "ember8" = Some 8 ∧ m' !! "ember9" = None.
Proof.
  destruct (serializeHasMany_placeholders
              (activeModelSerializer (Some (embeddedAlways "villains")))
              (league [tom; savedTom; yehuda]) [("name", VStr "Villain League")]
              villainsRel ∅ [tom; savedTom; yehuda] eq_refl eq_refl)
    as (datas & m' & Hrun & Hlen & Hnew & Hother).
  pose proof (Hnew 0 tom eq_refl) as [H0 Htom].
  pose proof (Hnew 1 savedTom eq_refl) as H1.
  pose proof (Hnew 2 yehuda eq_refl) as [H2 Hyehuda].
  simpl in H0, H1, H2.
  destruct datas as [|d0 [|d1 [|d2 [|]]]]; try discriminate Hlen.
  injection H0 as ->. injection H1 as ->. injection H2 as ->.
  exists m'. split; [exact Hrun|]. split; [exact Htom|]. split; [exact Hyehuda|].
  rewrite Hother; [reflexivity|].
  intros r Hr Hl.
  apply elem_of_cons in Hr as [->|Hr]; [by vm_compute|].
  apply elem_of_cons in Hr as [->|Hr]; [by vm_compute in Hl|].
  apply list_elem_of_singleton in Hr as ->. by vm_compute.
Defined.

(** ** The inbound pass, one child at a time *)





(** ** The inbound pass, one relationship at a time *)

Lemma eachRelationship_absent E recurse this a rel o st child :
  serializerFor E (rel_type rel) = Some child →
  getField o (keyForAttribute (instance E this) (rel_key rel)) = VUndef →
  eachRelationship E recurse this a rel (VObj o, st) = Done (VObj o, st).
Proof.
  intros Hs Hnone. unfold eachRelationship. rewrite Hs. simpl.
  destruct (rel_kind rel); [done|].
  destruct (loadsEmbedded _); [|done].
  by rewrite Hnone.
Qed.

(** C8. A node without a value under the relation's attribute key: the
    relationship is skipped, node and state (so the payload and its buckets)
    are as before, and nothing is thrown. *)
Theorem eachRelationship_missing E fuel this a rel o st child :
  serializerFor E (rel_type rel) = Some child →
  getField o (keyForAttribute (instance E this) (rel_key rel)) = VUndef →
  eachRelationship E (updatePayloadWithEmbedded E fuel) this a rel (VObj o, st) =
    Done (VObj o, st).
Proof. apply eachRelationship_absent. Qed.

Lemma eachRelationship_missing_witness :
  eachRelationship testEnv (updatePayloadWithEmbedded testEnv 1) 1
                   (embeddedAlways "villains") villainsRel
                   (VObj [("id", VStr "1"); ("name", VStr "Umber")],
                    {| payload := []; clientIdMaps := freshMaps; calls := [] |}) =
    Done (VObj [("id", VStr "1"); ("name", VStr "Umber")],
          {| payload := []; clientIdMaps := freshMaps; calls := [] |}).
Proof.
  apply (eachRelationship_missing testEnv 1 1 (embeddedAlways "villains") villainsRel
           [("id", VStr "1"); ("name", VStr "Umber")] _ 0); reflexivity.
Defined.

(** ** Iteration *)

Lemma forEach_app {A S} (f : A → S → outcome S) l1 l2 (s : S) :
  forEach f (l1 ++ l2) s = (s' ← forEach f l1 s; forEach f l2 s').
Proof.
  revert s. induction l1 as [|x l1 IH]; intros s; simpl; [done|].
  destruct (f x s) as [s1|e]; simpl; [apply IH|done].
Qed.

Lemma forEach_cons {A S} (f : A → S → outcome S) x l (s : S) :
  forEach f (x :: l) s = (s' ← f x s; forEach f l s').
Proof. done. Qed.

Lemma eachRelationship_inert E recurse this a rel acc :
  inert E a rel = true → eachRelationship E recurse this a rel acc = Done acc.
Proof.
  unfold inert, eachRelationship. destruct acc as [partial st].
  destruct (serializerFor E (rel_type rel)); [|done]. simpl.
  destruct (rel_kind rel); [done|].
  by destruct (loadsEmbedded _).
Qed.

Lemma forEach_inert E recurse this a rels acc :
  forallb (inert E a) rels = true →
  forEach (eachRelationship E recurse this a) rels acc = Done acc.
Proof.
  induction rels as [|r rels IH]; simpl; [done|].
  intros [Hr Hrs]%andb_prop. rewrite eachRelationship_inert by done. simpl. by apply IH.
Qed.

(** ** Settling the children of one relation *)

Lemma settle_ready E this rel st d :
  ready E this rel st = true → ready E this rel (settle E this rel st d) = true.
Proof.
  unfold ready, settle.
  destruct (clientIdMaps st !! this) as [m|] eqn:Hm; [|done].
  destruct (getField (payload st) (embeddedTypeKey E rel)) eqn:Hb; try done.
  intros _. destruct (m !! _) as [r|]; simpl.
  - by rewrite lookup_insert_eq, Hb.
  - by rewrite Hm, getField_setField_eq.
Qed.

(** The loop over the children of a relation, when every child flattens to
    [F c] and leaves the state [G c s] behind: the ids are the primary keys of
    the flattened children in order, and each child is settled in turn. *)
Lemma forEach_eachEmbedded_settle {X} E recurse this child rel Tm
    (enc : X → value) (F : X → obj) (G : X → state → state) (xs : list X) :
  modelFor E (rel_type rel) = Some Tm →
  (∀ x s, x ∈ xs → ready E this rel s = true →
     recurse child Tm (enc x) s = Done (VObj (F x), G x s) ∧
     ready E this rel (G x s) = true) →
  ∀ ids st, ready E this rel st = true →
    forEach (eachEmbedded E recurse this child rel) (map enc xs) (ids, st) =
      Done (ids ++ map (fun x => getField (F x) (primaryKey (instance E child))) xs,
            foldl (fun s x => settle E this rel (G x s) (F x)) st xs)
    ∧ ready E this rel (foldl (fun s x => settle E this rel (G x s) (F x)) st xs) = true.
Proof.
  intros HT. induction xs as [|x xs IH]; intros Hrec ids st Hst.
  - simpl. by rewrite app_nil_r.
  - cbn [map]. rewrite forEach_cons.
    destruct (Hrec x st) as [Hx Hready]; [by left|done|].
    assert (eachEmbedded E recurse this child rel (enc x) (ids, st) =
              Done (ids ++ [getField (F x) (primaryKey (instance E child))],
                    settle E this rel (G x st) (F x))) as ->.
    { unfold eachEmbedded. rewrite HT. simpl. rewrite Hx. simpl.
      unfold ready in Hready. unfold settle.
      destruct (clientIdMaps (G x st) !! this) as [m|]; [|done]. simpl.
      destruct (m !! _) as [r|]; [done|].
      by destruct (getField (payload (G x st)) (embeddedTypeKey E rel)). }
    cbn [mbind outcome_bind map foldl].
    destruct (IH (fun x' s Hx' => Hrec x' s (list_elem_of_further _ _ _ Hx'))
                 (ids ++ [getField (F x) (primaryKey (instance E child))])
                 (settle E this rel (G x st) (F x))
                 (settle_ready _ _ _ _ _ Hready)) as [-> ?].
    by rewrite <- app_assoc.
Qed.

(** An embedded relation with its nested array: the relationship's callback
    writes the ids, removes the nested field and settles the children. *)
Lemma eachRelationship_embedded {X} E recurse this child a rel Tm
    (enc : X → value) (F : X → obj) (G : X → state → state) o (xs : list X) st :
  serializerFor E (rel_type rel) = Some child →
  rel_kind rel = hasMany →
  loadsEmbedded (getField a (rel_key rel)) = true →
  getField o (keyForAttribute (instance E this) (rel_key rel)) = VArr (map enc xs) →
  modelFor E (rel_type rel) = Some Tm →
  ready E this rel (with_payload (ensureBucket (embeddedTypeKey E rel) (payload st)) st) = true →
  (∀ x s, x ∈ xs → ready E this rel s = true →
     recurse child Tm (enc x) s = Done (VObj (F x), G x s) ∧
     ready E this rel (G x s) = true) →
  eachRelationship E recurse this a rel (VObj o, st) =
    Done (VObj (delField (keyForAttribute (instance E this) (rel_key rel))
                  (setField (keyForRelationship (instance E this) (rel_key rel) hasMany)
                     (VArr (map (fun x => getField (F x) (primaryKey (instance E child))) xs))
                     o)),
          foldl (fun s x => settle E this rel (G x s) (F x))
                (with_payload (ensureBucket (embeddedTypeKey E rel) (payload st)) st) xs).
Proof.
  intros Hs Hk Hcfg Hatt HT Hready Hrec.
  unfold eachRelationship. rewrite Hs, Hk, Hcfg. simpl. rewrite Hatt. simpl.
  destruct (forEach_eachEmbedded_settle E recurse this child rel Tm enc F G xs HT Hrec
              [] _ Hready) as [-> _].
  done.
Qed.

Lemma eachEmbedded_inv E recurse this child rel c ids st ids' st' :
  eachEmbedded E recurse this child rel c (ids, st) = Done (ids', st') →
  ∃ Tm f s1,
    modelFor E (rel_type rel) = Some Tm ∧
    recurse child Tm c st = Done (VObj f, s1) ∧
    ids' = ids ++ [getField f (primaryKey (instance E child))].
Proof.
  unfold eachEmbedded.
  destruct (modelFor E (rel_type rel)) as [Tm|]; [|done]. simpl.
  destruct (recurse child Tm c st) as [[data' s1]|] eqn:Hrec; [|done]. simpl.
  destruct data' as [| | | | | |f]; try done. simpl.
  destruct (clientIdMaps s1 !! this) as [m|]; [|done]. simpl.
  destruct (m !! _) as [r|].
  - intros [= <- <-]. by exists Tm, f, s1.
  - destruct (push _ _); [|done]. simpl. intros [= <- <-]. by exists Tm, f, s1.
Qed.

Lemma forEach_eachEmbedded_inv E recurse this child rel children :
  ∀ ids st ids' st',
  forEach (eachEmbedded E recurse this child rel) children (ids, st) = Done (ids', st') →
  ∃ flat,
    Forall2 (fun c f => ∃ Tm s s', modelFor E (rel_type rel) = Some Tm ∧
                                   recurse child Tm c s = Done (VObj f, s'))
            children flat ∧
    ids' = ids ++ map (fun f => getField f (primaryKey (instance E child))) flat.
Proof.
  induction children as [|c cs IH]; intros ids st ids' st' Hrun.
  - injection Hrun as <- <-. exists []. split; [constructor|]. by rewrite app_nil_r.
  - rewrite forEach_cons in Hrun.
    destruct (eachEmbedded E recurse this child rel c (ids, st)) as [[ids1 st1]|] eqn:Hc;
      [|done].
    apply eachEmbedded_inv in Hc as (Tm & f & s1 & HT & Hrec & ->).
    apply IH in Hrun as (flat & Hflat & ->).
    exists (f :: flat). split.
    + constructor; [|done]. by exists Tm, st, s1.
    + by rewrite <- app_assoc.
Qed.

(** ** The recursion bound *)

Lemma depth_getField o k : depth (getField o k) < depth (VObj o).
Proof.
  cbn [depth]. induction o as [|[k' v'] o IH]; cbn [getField foldr snd]; [simpl; lia|].
  destruct (String.eqb k k'); lia.
Qed.

Lemma depth_setField k v o :
  (depth (VObj (setField k v o)) <= Nat.max (depth (VObj o)) (S (depth v)))%nat.
Proof.
  cbn [depth]. induction o as [|[k' v'] o IH]; cbn [setField foldr snd]; [lia|].
  destruct (String.eqb k k'); cbn [foldr snd]; lia.
Qed.

Lemma depth_delField k o : (depth (VObj (delField k o)) <= depth (VObj o))%nat.
Proof.
  cbn [depth]. induction o as [|[k' v'] o IH]; cbn [delField foldr snd]; [lia|].
  destruct (String.eqb k k'); cbn [foldr snd]; lia.
Qed.

Lemma depth_elem c l : c ∈ l → depth c < depth (VArr l).
Proof.
  cbn [depth]. induction l as [|c' l IH]; [by inversion 1|].
  cbn [foldr]. intros [->|Hin]%elem_of_cons; [lia|]. apply IH in Hin. lia.
Qed.

Lemma depth_array l d :
  (∀ c, c ∈ l → (depth c <= d)%nat) → (depth (VArr l) <= S d)%nat.
Proof.
  cbn [depth]. induction l as [|c l IH]; intros Hl; cbn [foldr]; [lia|].
  pose proof (Hl c ltac:(by left)).
  assert ((S (foldr (fun x d => Nat.max (depth x) d) 0 l) <= S d)%nat)
    by (apply IH; intros c' Hc'; apply Hl; by right).
  lia.
Qed.

Section Fuel.
Variable E : environment.
Variable n : nat.
Hypothesis IHn : ∀ this type partial st,
  depth partial < n → bounded partial (updatePayloadWithEmbedded E n this type partial st).

Lemma eachEmbedded_bounded this child rel d children : ∀ ids st,
  d < n →
  (∀ c, c ∈ children → (depth c <= d)%nat) →
  (∀ id, id ∈ ids → (depth id <= d)%nat) →
  match forEach (eachEmbedded E (updatePayloadWithEmbedded E n) this child rel)
                children (ids, st) with
  | Done (ids', _) => ∀ id, id ∈ ids' → (depth id <= d)%nat
  | Fail f => f ≠ OutOfFuel
  end.
Proof.
  induction children as [|c cs IH]; intros ids st Hd Hcs Hids; [done|].
  rewrite forEach_cons.
  destruct (eachEmbedded E (updatePayloadWithEmbedded E n) this child rel c (ids, st))
    as [[ids1 st1]|e] eqn:Hc; cbn [mbind outcome_bind].
  - apply IH; [done|intros c' Hc'; apply Hcs; by right|].
    apply eachEmbedded_inv in Hc as (Tm & f & s1 & _ & Hrec & ->).
    intros id [Hin|Hin%list_elem_of_singleton]%elem_of_app; [by apply Hids|subst id].
    pose proof (IHn child Tm c st) as Hb. rewrite Hrec in Hb. simpl in Hb.
    pose proof (Hcs c ltac:(by left)).
    pose proof (depth_getField f (primaryKey (instance E child))). simpl in *. lia.
  - unfold eachEmbedded in Hc.
    destruct (modelFor E (rel_type rel)) as [Tm|]; [|by injection Hc as <-].
    cbn [throwing mbind outcome_bind] in Hc.
    pose proof (IHn child Tm c st) as Hb.
    destruct (updatePayloadWithEmbedded E n child Tm c st) as [[data' s1]|e'].
    + cbn [mbind outcome_bind] in Hc.
      destruct data'; cbn in Hc; try (by injection Hc as <-).
      destruct (clientIdMaps s1 !! this) as [m|]; cbn in Hc; [|by injection Hc as <-].
      destruct (m !! _); [done|].
      destruct (getField (payload s1) (embeddedTypeKey E rel)); cbn in Hc;
        try done; by injection Hc as <-.
    + cbn in Hc. injection Hc as <-. apply Hb.
      pose proof (Hcs c ltac:(by left)). lia.
Qed.

Lemma eachRelationship_bounded this a rel partial st :
  depth partial < S n →
  bounded partial
    (eachRelationship E (updatePayloadWithEmbedded E n) this a rel (partial, st)).
Proof.
  intros Hd. unfold eachRelationship.
  destruct (serializerFor E (rel_type rel)) as [child|]; [|done].
  cbn [throwing mbind outcome_bind].
  destruct (rel_kind rel); [simpl; lia|].
  destruct (loadsEmbedded _); [|simpl; lia].
  destruct partial as [| | | | | |o]; try done. cbn [readProp mbind outcome_bind].
  destruct (truthy _); [|simpl; lia].
  destruct (getField o (keyForAttribute (instance E this) (rel_key rel)))
    as [| | | | |children|] eqn:Hatt; try done.
  cbn [asArray mbind outcome_bind].
  pose proof (depth_getField o (keyForAttribute (instance E this) (rel_key rel))) as Hnested.
  rewrite Hatt in Hnested.
  pose proof (eachEmbedded_bounded this child rel
                (foldr (fun x d => Nat.max (depth x) d) 0 children) children []
                (with_payload (ensureBucket (embeddedTypeKey E rel) (payload st)) st))
    as Hloop.
  destruct (forEach _ children _) as [[ids st']|e]; cbn [mbind outcome_bind bounded].
  - assert ((depth (VArr ids) <= depth (VArr children))%nat) as Hids.
    { apply depth_array. apply Hloop.
      - cbn [depth] in Hnested, Hd. lia.
      - intros c Hc%depth_elem. cbn [depth] in Hc. lia.
      - by inversion 1. }
    pose proof (depth_delField (keyForAttribute (instance E this) (rel_key rel))
                  (setField (keyForRelationship (instance E this) (rel_key rel) hasMany)
                            (VArr ids) o)).
    pose proof (depth_setField (keyForRelationship (instance E this) (rel_key rel) hasMany)
                  (VArr ids) o).
    lia.
  - apply Hloop.
    + cbn [depth] in Hnested, Hd. lia.
    + intros c Hc%depth_elem. cbn [depth] in Hc. lia.
    + by inversion 1.
Qed.

Lemma forEach_eachRelationship_bounded this a rels : ∀ partial st,
  depth partial < S n →
  bounded partial
    (forEach (eachRelationship E (updatePayloadWithEmbedded E n) this a) rels (partial, st)).
Proof.
  induction rels as [|rel rels IH]; intros partial st Hd; [simpl; lia|].
  rewrite forEach_cons.
  pose proof (eachRelationship_bounded this a rel partial st Hd) as Hrel.
  destruct (eachRelationship _ _ _ _ _ _) as [[p1 st1]|e]; cbn [mbind outcome_bind]; [|done].
  simpl in Hrel. specialize (IH p1 st1 ltac:(lia)).
  destruct (forEach _ rels _) as [[p2 st2]|e]; [|done]. simpl in *. lia.
Qed.
End Fuel.

(** Enough fuel: above the depth of the node the pass never stops for lack
    of fuel; it completes or it throws as the code does. *)
Lemma updatePayloadWithEmbedded_bounded E : ∀ fuel this type partial st,
  depth partial < fuel →
  bounded partial (updatePayloadWithEmbedded E fuel this type partial st).
Proof.
  induction fuel as [|n IH]; intros this type partial st Hd; [lia|].
  cbn [updatePayloadWithEmbedded].
  destruct (attrs (instance E this)) as [a|]; [|simpl; lia].
  by apply forEach_eachRelationship_bounded.
Qed.

(** Whenever the callback of an embedded relation completes, the list under
    the relationship key holds the primary keys of the flattened children, in
    their order. *)
Lemma eachRelationship_ids E recurse this child a rel o children st p' st' :
  serializerFor E (rel_type rel) = Some child →
  rel_kind rel = hasMany →
  loadsEmbedded (getField a (rel_key rel)) = true →
  getField o (keyForAttribute (instance E this) (rel_key rel)) = VArr children →
  eachRelationship E recurse this a rel (VObj o, st) = Done (p', st') →
  ∃ flat,
    Forall2 (fun c f => ∃ Tm s s', modelFor E (rel_type rel) = Some Tm ∧
               recurse child Tm c s = Done (VObj f, s'))
            children flat ∧
    p' = VObj (delField (keyForAttribute (instance E this) (rel_key rel))
                 (setField (keyForRelationship (instance E this) (rel_key rel) hasMany)
                    (VArr (map (fun f => getField f (primaryKey (instance E child))) flat)) o)).
Proof.
  intros Hs Hk Hcfg Hatt.
  unfold eachRelationship. rewrite Hs, Hk, Hcfg. simpl. rewrite Hatt. simpl.
  destruct (forEach _ children _) as [[ids st1]|] eqn:Hrun; [|done]. simpl.
  intros [= <- <-].
  apply forEach_eachEmbedded_inv in Hrun as (flat & Hflat & ->).
  by exists flat.
Qed.

(** ** The concrete scenario *)

(** With any recursion bound of at least two, the embedded pass of
    [extractSingle] turns the payload of the scenario into the root node with
    the ids under [villain_ids] and a bucket named [_superVillains] that
    holds the child as it was received: this is what [_super] is called
    with. *)
Example extractSingle_embedded_umber fuel :
  extractSingle_embedded testEnv (S (S fuel)) 1 HomePlanet umber =
    Done {| payload := umberEmbedded; clientIdMaps := freshMaps; calls := [] |}.
Proof. reflexivity. Qed.

(** C7. The concrete scenario.  [extractSingle] of [serializer:homePlanet],
    with the base serializer it delegates to, normalizes the payload of the
    scenario to the root [{id: "1", name: "Umber", villains: ["1"]}] and the
    sideloads [superVillains: [{id: "1", firstName: "Tom"}]], with any
    recursion bound of at least two. *)
Theorem extractSingle_umber_normalized fuel :
  extractSingle testEnv (base_extractSingle testEnv testAttributes testTypes 1 HomePlanet)
                (S (S fuel)) 1 HomePlanet umber =
    Done umberNormalized.
Proof. reflexivity. Qed.

(** ** The round trip *)

Lemma foldl_delete_lookup (ks : list string) : ∀ (m : gmap string nat) k,
  foldl (fun m k => delete k m) m ks !! k = if decide (k ∈ ks) then None else m !! k.
Proof.
  induction ks as [|k0 ks IH]; intros m k.
  - done.
  - cbn [foldl]. rewrite IH. destruct (decide (k ∈ ks)) as [Hin|Hin].
    + by rewrite decide_True by (by right).
    + destruct (decide (k = k0)) as [->|Hne].
      * rewrite decide_True by (by left). apply lookup_delete_eq.
      * rewrite decide_False by (intros [?|?]%elem_of_cons; done).
        by apply lookup_delete_ne.
Qed.

(** The loop over children that need no flattening and whose placeholders
    are all live and distinct: every child is confirmed, none is pushed. *)
Lemma forEach_all_reconciled E recurse this child rel Tm (pairs : list (obj * nat)) :
  modelFor E (rel_type rel) = Some Tm →
  (∀ p s, p ∈ pairs → recurse child Tm (VObj p.1) s = Done (VObj p.1, s)) →
  NoDup (map (fun p => placeholderOf E this p.1) pairs) →
  ∀ ids st (m : gmap string nat),
    clientIdMaps st !! this = Some m →
    (∀ p, p ∈ pairs → m !! placeholderOf E this p.1 = Some p.2) →
    forEach (eachEmbedded E recurse this child rel) (map (fun p => VObj p.1) pairs) (ids, st) =
      Done (ids ++ map (fun p => getField p.1 (primaryKey (instance E child))) pairs,
            {| payload := payload st;
               clientIdMaps :=
                 <[this := foldl (fun m k => delete k m) m
                             (map (fun p => placeholderOf E this p.1) pairs)]>
                   (clientIdMaps st);
               calls := calls st ++
                 concat (map (fun p => [AdapterWillCommit p.2; DidSaveRecord p.2 (VObj p.1)])
                             pairs) |}).
Proof.
  intros HT. induction pairs as [|[f r] ps IH]; intros Hflat Hnd ids st m Hm Hlive.
  - simpl. rewrite !app_nil_r, insert_id by done. by destruct st.
  - rewrite fmap_cons in Hnd. apply NoDup_cons in Hnd as [Hfresh Hnd].
    cbn [map fst snd]. rewrite forEach_cons.
    assert (eachEmbedded E recurse this child rel (VObj f) (ids, st) =
              Done (ids ++ [getField f (primaryKey (instance E child))],
                    {| payload := payload st;
                       clientIdMaps := <[this := delete (placeholderOf E this f) m]>
                                         (clientIdMaps st);
                       calls := calls st ++
                         [AdapterWillCommit r; DidSaveRecord r (VObj f)] |})) as ->.
    { unfold eachEmbedded. rewrite HT. simpl.
      rewrite (Hflat (f, r)) by (by left). simpl. rewrite Hm. simpl.
      specialize (Hlive (f, r) ltac:(by left)). unfold placeholderOf in Hlive.
      simpl in Hlive. by rewrite Hlive. }
    cbn [mbind outcome_bind].
    rewrite (IH (fun p s Hp => Hflat p s (list_elem_of_further _ _ _ Hp)) Hnd _ _
                (delete (placeholderOf E this f) m)).
    + simpl. by rewrite insert_insert_eq, <- !app_assoc.
    + simpl. apply lookup_insert_eq.
    + intros p Hp. rewrite lookup_delete_ne.
      * apply Hlive. by right.
      * intros Heq. apply Hfresh. simpl. rewrite Heq.
        apply (list_elem_of_fmap_2 (fun p => placeholderOf E this p.1)). done.
Qed.

Lemma embedAlways_loads this key a :
  attrs this = Some a → embedAlways this key = true → loadsEmbedded (getField a key) = true.
Proof.
  unfold embedAlways, loadsEmbedded. intros ->. intros [-> ->]%andb_prop. done.
Qed.

Global Instance guidFor_Inj : Inj (=) (=) guidFor.
Proof. intros r1 r2. apply guidFor_inj. Qed.

(** The children of a relation that all lack an identifier, paired with the
    identifiers of the response: what is echoed, what is recorded, and under
    which keys the pass will look. *)
Lemma echo_unsaved E this pkc relations : ∀ sids,
  pkc ≠ clientIdKey (instance E this) →
  length sids = length relations →
  Forall (fun r => lacksId (instance E this) r = true) relations →
  ∃ pairs : list (obj * nat),
    map (fun p => VObj p.1) pairs =
      echo pkc (map (fun r => VObj (embeddedData (instance E this) r)) relations) sids ∧
    map (fun p => getField p.1 pkc) pairs = sids ∧
    map (fun p => placeholderOf E this p.1) pairs =
      map (fun r => guidFor (rec_ref r)) relations ∧
    map snd pairs = map rec_ref relations.
Proof.
  intros sids Hne. revert sids.
  induction relations as [|r rs IH]; intros [|sid sids] Hlen Hno; try done.
  - by exists [].
  - apply Forall_cons in Hno as [Hr Hrs].
    destruct (IH sids) as (ps & H1 & H2 & H3 & H4); [by injection Hlen|done|].
    exists ((setField pkc sid (embeddedData (instance E this) r), rec_ref r) :: ps).
    cbn [map fst snd]. rewrite H1, H2, H3, H4. repeat split; try done.
    + by rewrite getField_setField_eq.
    + f_equal. unfold placeholderOf, embeddedData. rewrite Hr.
      by rewrite getField_setField_ne, getField_setField_eq.
Qed.

(** C1. The round trip of a save.  A record whose embedded relation holds
    [N] distinct children without identifier is serialized by a serializer
    whose [clientIdMap] is empty; the response echoes the children with the
    identifiers the server gave them.  The embedded pass of [extractSingle]
    then leaves under the relationship key the [N] identifiers in order, and
    the [clientIdMap] is empty again. *)
Theorem round_trip E fuel this child type pre post a rel Tm rec json relations
    json1 (m1 : gmap string nat) embedded sids o st :
  attrs (instance E this) = Some a →
  embedAlways (instance E this) (rel_key rel) = true →
  relationships type = pre ++ rel :: post →
  forallb (inert E a) pre = true →
  forallb (inert E a) post = true →
  rel_kind rel = hasMany →
  serializerFor E (rel_type rel) = Some child →
  modelFor E (rel_type rel) = Some Tm →
  keyForRelationship (instance E this) (rel_key rel) hasMany ≠
    keyForAttribute (instance E this) (rel_key rel) →
  primaryKey (instance E child) ≠ clientIdKey (instance E this) →
  lookupMany (rel_key rel) (rec_many rec) = Some relations →
  Forall (fun r => lacksId (instance E this) r = true) relations →
  NoDup (map rec_ref relations) →
  serializeHasMany (instance E this) rec json rel ∅ = Done (json1, m1) →
  getField json1 (keyForAttribute (instance E this) (rel_key rel)) = VArr embedded →
  length sids = length relations →
  getField (payload st) (keyForAttribute (instance E this) (typeKey type)) = VObj o →
  getField o (keyForAttribute (instance E this) (rel_key rel)) =
    VArr (echo (primaryKey (instance E child)) embedded sids) →
  clientIdMaps st !! this = Some m1 →
  (∀ c s, c ∈ echo (primaryKey (instance E child)) embedded sids →
     updatePayloadWithEmbedded E fuel child Tm c s = Done (c, s)) →
  ∃ o' st',
    extractSingle_embedded E (S fuel) this type st = Done st' ∧
    getField (payload st') (keyForAttribute (instance E this) (typeKey type)) = VObj o' ∧
    getField o' (keyForRelationship (instance E this) (rel_key rel) hasMany) = VArr sids ∧
    getField o' (keyForAttribute (instance E this) (rel_key rel)) = VUndef ∧
    clientIdMaps st' !! this = Some ∅ ∧
    calls st' = calls st ++
      confirmations (echo (primaryKey (instance E child)) embedded sids)
                    (map rec_ref relations).
Proof.
  intros Hattrs Hemb Hrels Hpre Hpost Hkind Hs HT Hne Hpk Hmany Hno Hnd Hout Hjson Hlen
    Hroot Hatt Hmap Hflat.
  (* what was sent *)
  unfold serializeHasMany in Hout. rewrite Hemb, Hmany in Hout. simpl in Hout.
  rewrite mapRelations_eq in Hout. injection Hout as <- <-.
  rewrite getField_setField_eq in Hjson. injection Hjson as <-.
  destruct (echo_unsaved E this (primaryKey (instance E child)) relations sids Hpk Hlen Hno)
    as (pairs & Hecho & Hids & Hkeys & Hrefs).
  rewrite <- Hecho in Hatt, Hflat |- *.
  (* the loop over the echoed children *)
  set (st0 := with_payload (ensureBucket (embeddedTypeKey E rel) (payload st)) st).
  pose proof (forEach_all_reconciled E (updatePayloadWithEmbedded E fuel) this child rel Tm
                pairs HT) as Hloop.
  specialize (Hloop
    (fun p s Hp => Hflat (VObj p.1) s
       (list_elem_of_fmap_2 (fun p : obj * nat => VObj p.1) pairs p Hp))).
  rewrite Hkeys in Hloop.
  specialize (Hloop ltac:(rewrite <- (map_map rec_ref guidFor); by apply (NoDup_fmap_2 guidFor))
                    [] st0 _ Hmap).
  assert (∀ p, p ∈ pairs →
            foldl (notePlaceholder (instance E this)) ∅ relations
              !! placeholderOf E this p.1 = Some p.2) as Hlive.
  { intros p Hp.
    apply list_elem_of_lookup in Hp as [i Hi].
    assert (map (fun p => placeholderOf E this p.1) pairs !! i
            = Some (placeholderOf E this p.1)) as Hk by (by rewrite list_lookup_fmap, Hi).
    assert (map snd pairs !! i = Some p.2) as Hr by (by rewrite list_lookup_fmap, Hi).
    rewrite Hkeys, list_lookup_fmap in Hk. rewrite Hrefs, list_lookup_fmap in Hr.
    destruct (relations !! i) as [r|] eqn:Hri; [|done].
    injection Hk as <-. injection Hr as <-.
    apply notePlaceholders_entry.
    - by apply list_elem_of_lookup_2 in Hri.
    - by apply (Forall_lookup_1 _ _ _ _ Hno Hri). }
  specialize (Hloop Hlive). rewrite Hids in Hloop. simpl in Hloop.
  (* the relationship, then the pass *)
  assert (foldl (fun m k => delete k m) (foldl (notePlaceholder (instance E this)) ∅ relations)
                (map (fun r => guidFor (rec_ref r)) relations) = ∅) as Hempty.
  { apply map_eq. intros k. rewrite foldl_delete_lookup, lookup_empty.
    case_decide as Hin; [done|].
    rewrite notePlaceholders_other; [done|].
    intros r Hr _ <-. apply Hin.
    by apply (list_elem_of_fmap_2 (fun r => guidFor (rec_ref r))). }
  rewrite Hempty in Hloop.
  assert (eachRelationship E (updatePayloadWithEmbedded E fuel) this a rel (VObj o, st) =
            Done (VObj (delField (keyForAttribute (instance E this) (rel_key rel))
                          (setField (keyForRelationship (instance E this) (rel_key rel) hasMany)
                                    (VArr sids) o)),
                  {| payload := payload st0;
                     clientIdMaps := <[this := ∅]> (clientIdMaps st0);
                     calls := calls st0 ++
                       concat (map (fun p => [AdapterWillCommit p.2;
                                              DidSaveRecord p.2 (VObj p.1)]) pairs) |}))
    as Hrel.
  { unfold eachRelationship. rewrite Hs, Hkind. simpl.
    rewrite (embedAlways_loads _ _ _ Hattrs Hemb), Hatt. simpl.
    fold st0. rewrite Hloop. done. }
  eexists _, _. split; [|split; [|split; [|split; [|split]]]].
  - unfold extractSingle_embedded. rewrite Hroot. simpl. rewrite Hattrs, Hrels.
    rewrite forEach_app, forEach_inert by done. cbn [mbind outcome_bind].
    rewrite forEach_cons, Hrel. cbn [mbind outcome_bind].
    rewrite forEach_inert by done. simpl. reflexivity.
  - simpl. apply getField_setField_eq.
  - by rewrite getField_delField_ne, getField_setField_eq.
  - apply getField_delField_eq.
  - simpl. apply lookup_insert_eq.
  - simpl. f_equal. unfold confirmations. f_equal.
    rewrite <- Hrefs. clear. induction pairs as [|[f r] ps IH]; simpl; [done|]. by rewrite IH.
Qed.

Lemma round_trip_witness :
  ∃ o' st',
    extractSingle_embedded testEnv 2 1 HomePlanet savedLeague = Done st' ∧
    getField (payload st') "home_planet" = VObj o' ∧
    getField o' "villain_ids" = VArr [VStr "1"; VStr "2"] ∧
    getField o' "villains" = VUndef ∧
    clientIdMaps st' !! 1 = Some ∅ ∧
    calls st' =
      [AdapterWillCommit 7;
       DidSaveRecord 7 (VObj (rec_json tom ++ [("_clientId", VStr "ember7"); ("id", VStr "1")]));
       AdapterWillCommit 8;
       DidSaveRecord 8 (VObj (rec_json yehuda ++ [("_clientId", VStr "ember8"); ("id", VStr "2")]))].
Proof.
  apply (round_trip testEnv 1 1 0 HomePlanet [] [] (embeddedAlways "villains") villainsRel
           SuperVillain (league [tom; yehuda]) [("name", VStr "Villain League")] [tom; yehuda]
           [("name", VStr "Villain League");
            ("villains", VArr [VObj (rec_json tom ++ [("_clientId", VStr "ember7")]);
                               VObj (rec_json yehuda ++ [("_clientId", VStr "ember8")])])]
           (<["ember8" := 8]> (<["ember7" := 7]> ∅))
           [VObj (rec_json tom ++ [("_clientId", VStr "ember7")]);
            VObj (rec_json yehuda ++ [("_clientId", VStr "ember8")])]
           [VStr "1"; VStr "2"]
           [("name", VStr "Villain League");
            ("villains",
             VArr (echo "id"
                     [VObj (rec_json tom ++ [("_clientId", VStr "ember7")]);
                      VObj (rec_json yehuda ++ [("_clientId", VStr "ember8")])]
                     [VStr "1"; VStr "2"]))]
           savedLeague);
    try reflexivity.
  - vm_compute. discriminate.
  - vm_compute. discriminate.
  - repeat constructor.
  - simpl. apply NoDup_cons. split; [|apply NoDup_singleton].
    intros Hin%list_elem_of_singleton. discriminate.
Defined.

(** ** A type that embeds itself *)




Lemma setField_same k o :
  truthy (getField o k) = true → setField k (getField o k) o = o.
Proof.
  induction o as [|[k' v'] o IH]; simpl; [done|].
  destruct (String.eqb k k') eqn:Hk.
  - apply String.eqb_eq in Hk as ->. done.
  - intros H. by rewrite IH.
Qed.





Lemma settle_payload_other E this rel st d k :
  k ≠ embeddedTypeKey E rel →
  getField (payload (settle E this rel st d)) k = getField (payload st) k.
Proof.
  intros Hk. unfold settle.
  destruct (clientIdMaps st !! this) as [m|]; [|done].
  destruct (m !! _); [done|].
  destruct (getField (payload st) (embeddedTypeKey E rel)); try done.
  simpl. by apply getField_setField_ne.
Qed.

Lemma foldl_settle_payload_other E this rel ds k : ∀ st,
  k ≠ embeddedTypeKey E rel →
  getField (payload (foldl (settle E this rel) st ds)) k = getField (payload st) k.
Proof.
  induction ds as [|d ds IH]; intros st Hk; simpl; [done|].
  by rewrite IH, settle_payload_other.
Qed.


Lemma ensureBucket_other k bk p : k ≠ bk → getField (ensureBucket bk p) k = getField p k.
Proof. intros Hk. unfold ensureBucket. by apply getField_setField_ne. Qed.

Section SameType.
Variable E : environment.
Variables (this : nat) (Tm : model) (a : obj) (rel : relationship).
Variables (pre post : list relationship).

Let att := keyForAttribute (instance E this) (rel_key rel).
Let exp := keyForRelationship (instance E this) (rel_key rel) hasMany.
Let pk := primaryKey (instance E this).

Hypothesis Hattrs : attrs (instance E this) = Some a.
Hypothesis Hrels : relationships Tm = pre ++ rel :: post.
Hypothesis Hpre : forallb (inert E a) pre = true.
Hypothesis Hpost : forallb (inert E a) post = true.
Hypothesis Hkind : rel_kind rel = hasMany.
Hypothesis Hcfg : loadsEmbedded (getField a (rel_key rel)) = true.
Hypothesis Hs : serializerFor E (rel_type rel) = Some this.
Hypothesis HT : modelFor E (rel_type rel) = Some Tm.
Hypothesis Hne : exp ≠ att.


End SameType.


(** ** The recursion bound does not matter *)

Lemma forEach_mono {A S} (f g : A → S → outcome S) l :
  (∀ x s r, f x s = Done r → g x s = Done r) →
  ∀ s r, forEach f l s = Done r → forEach g l s = Done r.
Proof.
  intros Hfg. induction l as [|x l IH]; intros s r; [done|].
  rewrite !forEach_cons. destruct (f x s) as [s1|] eqn:Hx; [|done].
  rewrite (Hfg _ _ _ Hx). apply IH.
Qed.

Lemma eachEmbedded_mono E (r1 r2 : nat → model → value → state → outcome (value * state))
    this child rel :
  (∀ c T v s r, r1 c T v s = Done r → r2 c T v s = Done r) →
  ∀ data acc r,
    eachEmbedded E r1 this child rel data acc = Done r →
    eachEmbedded E r2 this child rel data acc = Done r.
Proof.
  intros H12 data [ids st] r. unfold eachEmbedded.
  destruct (modelFor E (rel_type rel)) as [T|]; [|done]. cbn [throwing mbind outcome_bind].
  destruct (r1 child T data st) as [x|] eqn:H1; [|done]. by rewrite (H12 _ _ _ _ _ H1).
Qed.

Lemma eachRelationship_mono E (r1 r2 : nat → model → value → state → outcome (value * state))
    this a :
  (∀ c T v s r, r1 c T v s = Done r → r2 c T v s = Done r) →
  ∀ rel acc r,
    eachRelationship E r1 this a rel acc = Done r →
    eachRelationship E r2 this a rel acc = Done r.
Proof.
  intros H12 rel [partial st] r. unfold eachRelationship.
  destruct (serializerFor E (rel_type rel)) as [child|]; [|done].
  cbn [throwing mbind outcome_bind].
  destruct (rel_kind rel); [done|].
  destruct (loadsEmbedded _); [|done].
  destruct (readProp partial _) as [nested|]; [|done]. cbn [mbind outcome_bind].
  destruct (truthy nested); [|done].
  destruct (asArray nested) as [children|]; [|done]. cbn [mbind outcome_bind].
  destruct (forEach (eachEmbedded E r1 this child rel) children _) as [x|] eqn:H1; [|done].
  by rewrite (forEach_mono _ _ _ (eachEmbedded_mono E r1 r2 this child rel H12) _ _ H1).
Qed.

(** What the pass returns with some fuel it returns with any more. *)
Lemma updatePayloadWithEmbedded_mono E : ∀ fuel this type partial st r,
  updatePayloadWithEmbedded E fuel this type partial st = Done r →
  updatePayloadWithEmbedded E (S fuel) this type partial st = Done r.
Proof.
  induction fuel as [|n IH]; intros this type partial st r; [done|].
  cbn [updatePayloadWithEmbedded].
  destruct (attrs (instance E this)) as [a|]; [|done].
  apply forEach_mono. apply eachRelationship_mono. apply IH.
Qed.

(** ** The integration tests, up to the base serializer *)

Example extractSingle_nested :
  extractSingle_embedded nestedEnv 3 1 HomePlanet umberWithMinions =
    Done {| payload :=
              [("home_planet", VObj [("id", VStr "1"); ("name", VStr "Umber");
                                     ("villain_ids", VArr [VStr "1"])]);
               ("_superVillains",
                VArr [VObj [("id", VStr "1"); ("first_name", VStr "Tom");
                            ("last_name", VStr "Dale");
                            ("evil_minion_ids", VArr [VStr "1"])]]);
               ("_evilMinions", VArr [VObj [("id", VStr "1"); ("name", VStr "Alex")]])];
            clientIdMaps := <[3 := ∅]> freshMaps;
            calls := [] |}.
Proof. reflexivity. Qed.

Example extractArray_comments :
  extractArray_embedded testEnv 2 2 Comment twoComments =
    Done {| payload :=
              [("comments",
                VArr [VObj [("id", VStr "1"); ("body", VStr "Hello"); ("root", VBool true);
                            ("child_ids", VArr [VStr "2"; VStr "3"])]]);
               ("_comments",
                VArr [VObj [("id", VStr "2"); ("body", VStr "World"); ("root", VBool false)];
                      VObj [("id", VStr "3"); ("body", VStr "Foo"); ("root", VBool false)]])];
            clientIdMaps := freshMaps;
            calls := [] |}.
Proof. reflexivity. Qed.

(** * Further properties of the mixin *)

(** ** What the inbound pass keeps *)

Section Preserved.
Variable E : environment.
Variable R : state → state → Prop.
Hypothesis R_refl : ∀ st, R st st.
Hypothesis R_trans : ∀ s1 s2 s3, R s1 s2 → R s2 s3 → R s1 s3.
Hypothesis R_bucket : ∀ st rel,
  R st (with_payload (ensureBucket (embeddedTypeKey E rel) (payload st)) st).
Hypothesis R_confirm : ∀ st this (m : gmap string nat) r f,
  clientIdMaps st !! this = Some m → m !! placeholderOf E this f = Some r →
  R st {| payload := payload st;
          clientIdMaps := <[this := delete (placeholderOf E this f) m]> (clientIdMaps st);
          calls := calls st ++ [AdapterWillCommit r; DidSaveRecord r (VObj f)] |}.
Hypothesis R_push : ∀ st rel l d,
  getField (payload st) (embeddedTypeKey E rel) = VArr l →
  R st (with_payload (setField (embeddedTypeKey E rel) (VArr (l ++ [d])) (payload st)) st).

Lemma forEach_preserved {A B} (f : A → B * state → outcome (B * state)) l :
  (∀ x b s b' s', f x (b, s) = Done (b', s') → R s s') →
  ∀ b s b' s', forEach f l (b, s) = Done (b', s') → R s s'.
Proof.
  intros Hf. induction l as [|x l IH]; intros b s b' s' Hrun.
  - injection Hrun as <- <-. apply R_refl.
  - rewrite forEach_cons in Hrun.
    destruct (f x (b, s)) as [[b1 s1]|] eqn:Hx; [|done].
    apply Hf in Hx. apply IH in Hrun. by apply (R_trans _ s1).
Qed.

Lemma eachEmbedded_preserved recurse this child rel data ids st ids' st' :
  (∀ c T v s p s', recurse c T v s = Done (p, s') → R s s') →
  eachEmbedded E recurse this child rel data (ids, st) = Done (ids', st') → R st st'.
Proof.
  intros Hrec. unfold eachEmbedded.
  destruct (modelFor E (rel_type rel)) as [T|]; [|done]. cbn [throwing mbind outcome_bind].
  destruct (recurse child T data st) as [[data' s1]|] eqn:H1; [|done].
  apply Hrec in H1. simpl.
  destruct data' as [| | | | | |f]; try done. simpl.
  destruct (clientIdMaps s1 !! this) as [m|] eqn:Hm; [|done]. simpl.
  destruct (m !! _) as [r|] eqn:Hk.
  - intros [= <- <-]. apply (R_trans _ s1); [done|]. by apply (R_confirm s1 this m r f).
  - destruct (getField (payload s1) (embeddedTypeKey E rel)) eqn:Hb; try done.
    simpl. intros [= <- <-].
    apply (R_trans _ s1); [done|]. by apply R_push.
Qed.

Lemma eachRelationship_preserved recurse this a rel partial st p' st' :
  (∀ c T v s p s', recurse c T v s = Done (p, s') → R s s') →
  eachRelationship E recurse this a rel (partial, st) = Done (p', st') → R st st'.
Proof.
  intros Hrec. unfold eachRelationship.
  destruct (serializerFor E (rel_type rel)) as [child|]; [|done].
  cbn [throwing mbind outcome_bind].
  destruct (rel_kind rel); [intros [= <- <-]; apply R_refl|].
  destruct (loadsEmbedded _); [|intros [= <- <-]; apply R_refl].
  destruct (readProp partial _) as [nested|]; [|done]. cbn [mbind outcome_bind].
  destruct (truthy nested); [|intros [= <- <-]; apply R_refl].
  destruct (asArray nested) as [children|]; [|done]. cbn [mbind outcome_bind].
  destruct (forEach _ children _) as [[ids s1]|] eqn:Hloop; [|done].
  cbn [mbind outcome_bind].
  apply (forEach_preserved _ _
           (fun x b s b' s' => eachEmbedded_preserved recurse this child rel x b s b' s' Hrec))
    in Hloop.
  destruct partial; try done. intros [= <- <-].
  apply (R_trans _ _ _ (R_bucket st rel) Hloop).
Qed.

Lemma updatePayloadWithEmbedded_preserved : ∀ fuel this type partial st p' st',
  updatePayloadWithEmbedded E fuel this type partial st = Done (p', st') → R st st'.
Proof.
  induction fuel as [|n IH]; intros this type partial st p' st'; [done|].
  cbn [updatePayloadWithEmbedded].
  destruct (attrs (instance E this)) as [a|]; [|intros [= <- <-]; apply R_refl].
  apply forEach_preserved. intros rel p s p1 s1.
  apply eachRelationship_preserved. intros c T v s0 p0 s0'. apply IH.
Qed.

(** The two entry points, when the relation does not look at the payload
    key the entry point writes back. *)
Lemma extractSingle_embedded_preserved fuel this type st st' :
  (∀ s p, R s (with_payload p s)) →
  extractSingle_embedded E fuel this type st = Done st' → R st st'.
Proof.
  intros Hp. unfold extractSingle_embedded.
  destruct (updatePayloadWithEmbedded E fuel this type _ st) as [[p1 s1]|] eqn:Hrun; [|done].
  apply updatePayloadWithEmbedded_preserved in Hrun. cbn [mbind outcome_bind].
  destruct p1; intros [= <-]; try done.
  apply (R_trans _ s1); [done|apply Hp].
Qed.

Lemma extractArray_embedded_preserved fuel this type st st' :
  (∀ s p, R s (with_payload p s)) →
  extractArray_embedded E fuel this type st = Done st' → R st st'.
Proof.
  intros Hp. unfold extractArray_embedded.
  destruct (getField (payload st) _) as [| | | | |partials|]; try done.
  destruct (forEach _ partials _) as [[out s1]|] eqn:Hloop; [|done].
  cbn [mbind outcome_bind].
  apply forEach_preserved in Hloop.
  - destruct (getField (payload s1) _); intros [= <-]; try done.
    apply (R_trans _ s1); [done|apply Hp].
  - intros x b s b' s'.
    destruct (updatePayloadWithEmbedded E fuel this type x s) as [[p2 s2]|] eqn:Hx; [|done].
    cbn [mbind outcome_bind]. intros [= <- <-].
    by apply updatePayloadWithEmbedded_preserved in Hx.
Qed.
End Preserved.

Lemma drained_refl ms : drained ms ms.
Proof. intros i. by destruct (ms !! i). Qed.

Lemma drained_trans ms1 ms2 ms3 : drained ms1 ms2 → drained ms2 ms3 → drained ms1 ms3.
Proof.
  intros H12 H23 i. specialize (H12 i). specialize (H23 i).
  destruct (ms1 !! i), (ms2 !! i), (ms3 !! i); try done. by etrans.
Qed.

Lemma drained_delete (ms : gmap nat (gmap string nat)) this m k :
  ms !! this = Some m → drained ms (<[this := delete k m]> ms).
Proof.
  intros Hm i. destruct (decide (i = this)) as [->|Hne].
  - rewrite Hm, lookup_insert_eq. apply delete_subseteq.
  - rewrite lookup_insert_ne by done. by destruct (ms !! i).
Qed.

Lemma extractSingle_embedded_drained E fuel this type st st' :
  extractSingle_embedded E fuel this type st = Done st' →
  drained (clientIdMaps st) (clientIdMaps st').
Proof.
  apply (extractSingle_embedded_preserved E
           (fun s s' => drained (clientIdMaps s) (clientIdMaps s'))).
  - intros; apply drained_refl.
  - intros; by eapply drained_trans.
  - intros; apply drained_refl.
  - intros; by apply drained_delete.
  - intros; apply drained_refl.
  - intros; apply drained_refl.
Qed.

Lemma extractArray_embedded_drained E fuel this type st st' :
  extractArray_embedded E fuel this type st = Done st' →
  drained (clientIdMaps st) (clientIdMaps st').
Proof.
  apply (extractArray_embedded_preserved E
           (fun s s' => drained (clientIdMaps s) (clientIdMaps s'))).
  - intros; apply drained_refl.
  - intros; by eapply drained_trans.
  - intros; apply drained_refl.
  - intros; by apply drained_delete.
  - intros; apply drained_refl.
  - intros; apply drained_refl.
Qed.

(** X1. Neither entry point of the inbound side ever adds to a
    [clientIdMap]: when [extractSingle] or [extractArray] has run its
    embedded pass, every serializer instance that had a map still has one,
    and each map holds only entries it held before. *)
Theorem extract_never_adds_placeholders E fuel this type st st' :
  extractSingle_embedded E fuel this type st = Done st' ∨
  extractArray_embedded E fuel this type st = Done st' →
  drained (clientIdMaps st) (clientIdMaps st').
Proof.
  intros [Hrun|Hrun].
  - by apply extractSingle_embedded_drained in Hrun.
  - by apply extractArray_embedded_drained in Hrun.
Qed.

Lemma extract_never_adds_placeholders_witness :
  ∃ st',
    extractSingle_embedded testEnv 2 1 HomePlanet savedLeague = Done st' ∧
    drained (clientIdMaps savedLeague) (clientIdMaps st').
Proof.
  eexists. split; [reflexivity|].
  apply (extract_never_adds_placeholders testEnv 2 1 HomePlanet savedLeague).
  left. reflexivity.
Defined.

Lemma grown_refl p k : grown p p k.
Proof. split; [|done]. intros l Hl. exists []. by rewrite app_nil_r. Qed.

Lemma grown_trans p1 p2 p3 k : grown p1 p2 k → grown p2 p3 k → grown p1 p3 k.
Proof.
  intros [Ha1 Hu1] [Ha2 Hu2]. split.
  - intros l Hl. destruct (Ha1 l Hl) as [l1 H1]. destruct (Ha2 _ H1) as [l2 H2].
    exists (l1 ++ l2). by rewrite app_assoc.
  - intros Hk. by rewrite Hu2, Hu1.
Qed.

Lemma grown_other p p' k :
  getField p' k = getField p k → grown p p' k.
Proof. intros Heq. unfold grown. rewrite Heq. apply grown_refl. Qed.

Lemma grown_ensureBucket E rel p k : grown p (ensureBucket (embeddedTypeKey E rel) p) k.
Proof.
  destruct (decide (embeddedTypeKey E rel = k)) as [<-|Hne].
  - split.
    + intros l Hl. exists []. unfold ensureBucket.
      by rewrite getField_setField_eq, Hl, app_nil_r.
    + intros Hk. by destruct (Hk (pluralize E (rel_type rel))).
  - apply grown_other. unfold ensureBucket. by apply getField_setField_ne.
Qed.

Lemma grown_push E rel p l d k :
  getField p (embeddedTypeKey E rel) = VArr l →
  grown p (setField (embeddedTypeKey E rel) (VArr (l ++ [d])) p) k.
Proof.
  intros Hb. destruct (decide (embeddedTypeKey E rel = k)) as [<-|Hne].
  - split.
    + intros l0 Hl. rewrite Hb in Hl. injection Hl as <-.
      exists [d]. apply getField_setField_eq.
    + intros Hk. by destruct (Hk (pluralize E (rel_type rel))).
  - apply grown_other. by apply getField_setField_ne.
Qed.

Lemma updatePayloadWithEmbedded_grown E fuel this type partial st p' st' :
  updatePayloadWithEmbedded E fuel this type partial st = Done (p', st') →
  ∀ k, grown (payload st) (payload st') k.
Proof.
  apply (updatePayloadWithEmbedded_preserved E
           (fun s s' => ∀ k, grown (payload s) (payload s') k)).
  - intros s k. apply grown_refl.
  - intros s1 s2 s3 H12 H23 k. by eapply grown_trans.
  - intros s rel k. apply grown_ensureBucket.
  - intros s i m r f _ _ k'. apply grown_refl.
  - intros s rel l d Hb k. by apply grown_push.
Qed.

(** X2. What the embedded pass of the two entry points leaves alone in the
    payload.  Apart from the root key the entry point itself rewrites, a
    top-level key that does not begin with an underscore keeps its value, and
    an array under any key keeps its elements, in order, in front of whatever
    is pushed: what was sideloaded before is neither dropped nor moved. *)
Theorem extract_payload_frame E fuel this type st :
  (∀ st' k,
     extractSingle_embedded E fuel this type st = Done st' →
     k ≠ keyForAttribute (instance E this) (typeKey type) →
     grown (payload st) (payload st') k)
  ∧
  (∀ st' k,
     extractArray_embedded E fuel this type st = Done st' →
     k ≠ pluralize E (keyForAttribute (instance E this) (typeKey type)) →
     grown (payload st) (payload st') k).
Proof.
  split; intros st' k Hrun Hk.
  - unfold extractSingle_embedded in Hrun.
    destruct (updatePayloadWithEmbedded E fuel this type _ st) as [[p1 s1]|] eqn:Hpass;
      [|done].
    pose proof (updatePayloadWithEmbedded_grown E _ _ _ _ _ _ _ Hpass k) as Hg.
    cbn [mbind outcome_bind] in Hrun.
    destruct p1; injection Hrun as <-; try done.
    apply (grown_trans _ _ _ _ Hg). apply grown_other. simpl.
    by apply getField_setField_ne.
  - unfold extractArray_embedded in Hrun.
    destruct (getField (payload st) _) as [| | | | |partials|]; try done.
    destruct (forEach _ partials _) as [[out s1]|] eqn:Hloop; [|done].
    cbn [mbind outcome_bind] in Hrun.
    assert (∀ k, grown (payload st) (payload s1) k) as Hg.
    { refine (forEach_preserved (fun s s' => ∀ k, grown (payload s) (payload s') k)
                _ _ _ _ _ _ _ _ _ Hloop).
      - intros s k'. apply grown_refl.
      - intros s2 s3 s4 H23 H34 k'. by eapply grown_trans.
      - intros x b s b' s'.
        destruct (updatePayloadWithEmbedded E fuel this type x s) as [[p2 s2]|] eqn:Hx;
          [|done].
        cbn [mbind outcome_bind]. intros [= <- <-].
        by apply (updatePayloadWithEmbedded_grown E _ _ _ _ _ _ _ Hx). }
    destruct (getField (payload s1) _); injection Hrun as <-; try done.
    apply (grown_trans _ _ _ _ (Hg k)). apply grown_other. simpl.
    by apply getField_setField_ne.
Qed.

Lemma extract_payload_frame_witness :
  ∃ st',
    extractSingle_embedded testEnv 2 1 HomePlanet pendingTom = Done st' ∧
    grown (payload pendingTom) (payload st') "_superVillains".
Proof.
  eexists. split; [reflexivity|].
  apply (proj1 (extract_payload_frame testEnv 2 1 HomePlanet pendingTom)).
  - reflexivity.
  - vm_compute. discriminate.
Defined.

(** ** Nothing configured, nothing there *)

Lemma updatePayloadWithEmbedded_unconfigured E fuel this type partial st :
  (∀ a, attrs (instance E this) = Some a →
        forallb (inert E a) (relationships type) = true) →
  updatePayloadWithEmbedded E (S fuel) this type partial st = Done (partial, st).
Proof.
  intros Hinert. cbn [updatePayloadWithEmbedded].
  destruct (attrs (instance E this)) as [a|]; [|done].
  by apply forEach_inert, Hinert.
Qed.

Lemma with_payload_same st : with_payload (payload st) st = st.
Proof. by destruct st. Qed.

(** X3. A type none of whose relationships is an embedded has-many (no
    [attrs] at all, or only other kinds and other configurations): the
    embedded pass of [extractSingle] hands the payload on exactly as it came,
    whatever is under the root key, even nothing; and so does the pass
    of [extractArray] when the plural root key holds an array. *)
Theorem extract_unconfigured E fuel this type st :
  (∀ a, attrs (instance E this) = Some a →
        forallb (inert E a) (relationships type) = true) →
  extractSingle_embedded E (S fuel) this type st = Done st ∧
  (∀ partials,
     getField (payload st) (pluralize E (keyForAttribute (instance E this) (typeKey type))) =
       VArr partials →
     extractArray_embedded E (S fuel) this type st = Done st).
Proof.
  intros Hinert. split.
  - unfold extractSingle_embedded.
    rewrite updatePayloadWithEmbedded_unconfigured by done. cbn [mbind outcome_bind].
    destruct (getField (payload st) _) eqn:Hroot; try done.
    rewrite <- Hroot, setField_same by (by rewrite Hroot).
    by rewrite with_payload_same.
  - intros partials Hroot. unfold extractArray_embedded. rewrite Hroot.
    assert (∀ l out,
              forEach (fun partial '(done, st) =>
                         '(partial', st') ←
                           updatePayloadWithEmbedded E (S fuel) this type partial st;
                         Done (done ++ [partial'], st')) l (out, st)
              = Done (out ++ l, st)) as ->.
    { induction l as [|x l IH]; intros out; [by rewrite app_nil_r|].
      rewrite forEach_cons, updatePayloadWithEmbedded_unconfigured by done.
      cbn [mbind outcome_bind]. by rewrite IH, <- app_assoc. }
    cbn [mbind outcome_bind]. rewrite Hroot, drop_all, app_nil_r. simpl.
    rewrite <- Hroot, setField_same by (by rewrite Hroot).
    by rewrite with_payload_same.
Qed.

Lemma extract_unconfigured_witness :
  extractSingle_embedded testEnv 1 0 SuperVillain umber = Done umber ∧
  extractSingle_embedded testEnv 1 1 EvilMinion umber = Done umber.
Proof.
  split.
  - apply (extract_unconfigured testEnv 0 0 SuperVillain umber). intros a Ha. discriminate Ha.
  - apply (extract_unconfigured testEnv 0 1 EvilMinion umber).
    intros a Ha. injection Ha as <-. reflexivity.
Defined.

(** X4. The root node is missing.  [extractArray] throws when the payload has
    nothing under the plural root key, whatever the configuration, because it
    iterates it; [extractSingle] throws when nothing is under the root key and
    the pass reaches an embedded has-many relationship, because it reads the
    relation's field of the missing node. *)
Theorem extract_missing_root E fuel this type st :
  (getField (payload st) (pluralize E (keyForAttribute (instance E this) (typeKey type))) =
     VUndef →
   extractArray_embedded E fuel this type st = Fail Thrown)
  ∧
  (∀ a pre rel post child,
     attrs (instance E this) = Some a →
     relationships type = pre ++ rel :: post →
     forallb (inert E a) pre = true →
     serializerFor E (rel_type rel) = Some child →
     rel_kind rel = hasMany →
     loadsEmbedded (getField a (rel_key rel)) = true →
     getField (payload st) (keyForAttribute (instance E this) (typeKey type)) = VUndef →
     extractSingle_embedded E (S fuel) this type st = Fail Thrown).
Proof.
  split.
  - intros Hroot. unfold extractArray_embedded. by rewrite Hroot.
  - intros a pre rel post child Ha Hrels Hpre Hs Hk Hcfg Hroot.
    assert (∀ recurse, eachRelationship E recurse this a rel (VUndef, st) = Fail Thrown)
      as Hrel by (intros recurse; unfold eachRelationship; by rewrite Hs, Hk, Hcfg).
    unfold extractSingle_embedded. rewrite Hroot. cbn [updatePayloadWithEmbedded].
    rewrite Ha, Hrels, forEach_app, forEach_inert by done. cbn [mbind outcome_bind].
    by rewrite forEach_cons, Hrel.
Qed.

Lemma extract_missing_root_witness :
  extractArray_embedded testEnv 2 1 HomePlanet umber = Fail Thrown ∧
  extractSingle_embedded testEnv 2 2 Comment umber = Fail Thrown.
Proof.
  split.
  - apply (proj1 (extract_missing_root testEnv 2 1 HomePlanet umber)). reflexivity.
  - apply (proj2 (extract_missing_root testEnv 1 2 Comment umber)
             (embeddedAlways "children") [] childrenRel [] 2); reflexivity.
Defined.

(** ** What makes the pass throw *)

Lemma forEach_fails {A S} (f : A → S → outcome S) l x :
  x ∈ l → (∀ s, ∃ e, f x s = Fail e) → ∀ s, ∃ e, forEach f l s = Fail e.
Proof.
  intros Hin Hx. induction l as [|y l IH]; intros s; [by inversion Hin|].
  rewrite forEach_cons. destruct (f y s) as [s1|e] eqn:Hy; cbn [mbind outcome_bind]; [|eauto].
  apply elem_of_cons in Hin as [->|Hin]; [|by apply IH].
  destruct (Hx s) as [e He]. congruence.
Qed.

(** X5. The serializer of every relationship's type is looked up before the
    relationship's kind and configuration are: a relationship to a type the
    store does not know, be it a [belongsTo] or a relation that is not
    embedded, makes the pass fail for every payload; it throws there once the
    relationships before it are passed over. *)
Theorem unknown_type_fails E this type a rel :
  attrs (instance E this) = Some a →
  rel ∈ relationships type →
  serializerFor E (rel_type rel) = None →
  (∀ fuel partial st, ∃ e, updatePayloadWithEmbedded E fuel this type partial st = Fail e)
  ∧
  (∀ fuel partial st pre post,
     relationships type = pre ++ rel :: post →
     forallb (inert E a) pre = true →
     updatePayloadWithEmbedded E (S fuel) this type partial st = Fail Thrown).
Proof.
  intros Ha Hin Hs.
  assert (∀ recurse acc, eachRelationship E recurse this a rel acc = Fail Thrown) as Hrel.
  { intros recurse [p s]. unfold eachRelationship. by rewrite Hs. }
  split.
  - intros [|n] partial st; [by exists OutOfFuel|].
    cbn [updatePayloadWithEmbedded]. rewrite Ha.
    apply (forEach_fails _ _ rel); [done|]. intros s. exists Thrown. apply Hrel.
  - intros fuel partial st pre post Hrels Hpre. cbn [updatePayloadWithEmbedded].
    rewrite Ha, Hrels, forEach_app, forEach_inert by done. cbn [mbind outcome_bind].
    by rewrite forEach_cons, Hrel.
Qed.

Lemma unknown_type_fails_witness :
  ∃ e, updatePayloadWithEmbedded testEnv 3 1 HomePlanetInGalaxy
         (getField (payload umber) "home_planet") umber = Fail e.
Proof.
  apply (proj1 (unknown_type_fails testEnv 1 HomePlanetInGalaxy (embeddedAlways "villains")
                  galaxyRel eq_refl ltac:(right; left) eq_refl)).
Defined.

(** ** One bucket for a type *)


Lemma foldl_settle_fieldsOf E this rel cs : ∀ st,
  foldl (fun s c => settle E this rel s (fieldsOf c)) st cs =
  foldl (settle E this rel) st (map fieldsOf cs).
Proof. induction cs as [|c cs IH]; intros st; simpl; [done|]. apply IH. Qed.





Section SharedBucket.
Variable E : environment.
Variables (fuel this : nat) (type : model) (a : obj).
Variables (pre post : list relationship) (rel : relationship).
Variables (child : nat) (Tm : model).

Let att := keyForAttribute (instance E this) (rel_key rel).
Let exp := keyForRelationship (instance E this) (rel_key rel) hasMany.
Let pk := primaryKey (instance E child).
Let bk := embeddedTypeKey E rel.

Hypothesis Hattrs : attrs (instance E this) = Some a.
Hypothesis Hrels : relationships type = pre ++ rel :: post.
Hypothesis Hpre : forallb (inert E a) pre = true.
Hypothesis Hpost : forallb (inert E a) post = true.
Hypothesis Hkind : rel_kind rel = hasMany.
Hypothesis Hcfg : loadsEmbedded (getField a (rel_key rel)) = true.
Hypothesis Hs : serializerFor E (rel_type rel) = Some child.
Hypothesis HT : modelFor E (rel_type rel) = Some Tm.



End SharedBucket.


(** ** What the [clientIdMap] holds *)

Lemma notePlaceholder_guidKeyed this m r :
  guidKeyed m → guidKeyed (notePlaceholder this m r).
Proof.
  intros Hm. unfold notePlaceholder. destruct (lacksId this r); [|done].
  intros k r'. destruct (decide (guidFor (rec_ref r) = k)) as [<-|Hne].
  - rewrite lookup_insert_eq. by intros [= <-].
  - rewrite lookup_insert_ne by done. apply Hm.
Qed.

Lemma notePlaceholders_guidKeyed this rs : ∀ m,
  guidKeyed m → guidKeyed (foldl (notePlaceholder this) m rs).
Proof.
  induction rs as [|r rs IH]; intros m Hm; [done|].
  simpl. by apply IH, notePlaceholder_guidKeyed.
Qed.

Lemma drained_guidKeyed ms ms' :
  drained ms ms' →
  (∀ i m, ms !! i = Some m → guidKeyed m) →
  ∀ i m', ms' !! i = Some m' → guidKeyed m'.
Proof.
  intros Hd Hms i m' Hi k r Hk. specialize (Hd i). rewrite Hi in Hd.
  destruct (ms !! i) as [m|] eqn:Hm; [|done].
  apply (Hms i m Hm). by eapply lookup_weaken.
Qed.

(** X9. The invariant of the [clientIdMap]: every key is the guid of the
    record it maps to.  The empty map of [init] has it, [serializeHasMany]
    keeps it, and so do the embedded passes of [extractSingle] and
    [extractArray] for the map of every serializer instance. *)
Theorem clientIdMap_guid_keyed :
  guidKeyed ∅ ∧
  (∀ this rec json rel m json' m',
     guidKeyed m →
     serializeHasMany this rec json rel m = Done (json', m') →
     guidKeyed m') ∧
  (∀ E fuel this type st st',
     (∀ i m, clientIdMaps st !! i = Some m → guidKeyed m) →
     extractSingle_embedded E fuel this type st = Done st' ∨
     extractArray_embedded E fuel this type st = Done st' →
     ∀ i m', clientIdMaps st' !! i = Some m' → guidKeyed m').
Proof.
  split; [|split].
  - intros k r Hk. by rewrite lookup_empty in Hk.
  - intros this rec json rel m json' m' Hm. unfold serializeHasMany.
    destruct (embedAlways this (rel_key rel)); [|by intros [= <- <-]].
    destruct (lookupMany _ _) as [rs|]; [|done]. cbn [throwing mbind outcome_bind].
    rewrite mapRelations_eq. intros [= <- <-]. by apply notePlaceholders_guidKeyed.
  - intros E fuel this type st st' Hst Hrun.
    apply (drained_guidKeyed (clientIdMaps st)); [|done].
    destruct Hrun as [Hrun|Hrun].
    + by apply extractSingle_embedded_drained in Hrun.
    + by apply extractArray_embedded_drained in Hrun.
Qed.

Lemma clientIdMap_guid_keyed_witness :
  ∃ json' m',
    serializeHasMany (activeModelSerializer (Some (embeddedAlways "villains")))
                     (league [tom; yehuda]) [] villainsRel ∅ = Done (json', m') ∧
    guidKeyed m'.
Proof.
  eexists _, _. split; [reflexivity|].
  destruct clientIdMap_guid_keyed as (Hinit & Hout & _).
  eapply (Hout (activeModelSerializer (Some (embeddedAlways "villains")))
               (league [tom; yehuda]) [] villainsRel ∅); [exact Hinit|reflexivity].
Defined.

Lemma falsy_not_guid v r : truthy v = false → toPropertyKey v ≠ guidFor r.
Proof.
  unfold guidFor. destruct v as [| |b|n|s| |]; try done; simpl.
  - by destruct b.
  - intros Hn%negb_false_iff%Z.eqb_eq. by subst n.
  - intros Hs%negb_false_iff%String.eqb_eq. by subst s.
Qed.

(** X10. A child of the response that comes without a placeholder (the
    field absent, [null], empty, zero or [false]) is never taken for a record
    that is waiting to be saved: the key it is looked up under ([undefined],
    [null], ...) is no guid, so against a guid-keyed [clientIdMap] the child
    is sideloaded and the map is left as it is. *)
Theorem no_placeholder_never_reconciles E fuel this child rel data ids st Tm d st1
    (cmap : gmap string nat) bucket :
  modelFor E (rel_type rel) = Some Tm →
  updatePayloadWithEmbedded E fuel child Tm data st = Done (VObj d, st1) →
  clientIdMaps st1 !! this = Some cmap →
  guidKeyed cmap →
  truthy (getField d (clientIdKey (instance E this))) = false →
  getField (payload st1) (embeddedTypeKey E rel) = VArr bucket →
  ∃ st',
    eachEmbedded E (updatePayloadWithEmbedded E fuel) this child rel data (ids, st) =
      Done (ids ++ [getField d (primaryKey (instance E child))], st') ∧
    getField (payload st') (embeddedTypeKey E rel) = VArr (bucket ++ [VObj d]) ∧
    clientIdMaps st' = clientIdMaps st1 ∧
    calls st' = calls st1.
Proof.
  intros HT Hrec Hmap Hkeyed Hfalsy Hb.
  assert (cmap !! toPropertyKey (getField d (clientIdKey (instance E this))) = None) as Hmiss.
  { destruct (cmap !! _) as [r|] eqn:Hk; [|done].
    apply Hkeyed in Hk. by apply falsy_not_guid in Hk. }
  eexists. split; [|split; [|split]].
  - unfold eachEmbedded.
    rewrite HT. simpl. rewrite Hrec. simpl. rewrite Hmap. simpl. rewrite Hmiss, Hb. done.
  - simpl. apply getField_setField_eq.
  - done.
  - done.
Qed.

Lemma no_placeholder_never_reconciles_witness :
  ∃ st',
    eachEmbedded testEnv (updatePayloadWithEmbedded testEnv 1) 1 0 villainsRel
                 (VObj strippedTom) ([], pendingTom) = Done ([VStr "1"], st') ∧
    getField (payload st') "_superVillains" = VArr [VObj strippedTom] ∧
    clientIdMaps st' = clientIdMaps pendingTom ∧
    calls st' = [].
Proof.
  apply (no_placeholder_never_reconciles testEnv 1 1 0 villainsRel (VObj strippedTom) []
           pendingTom SuperVillain strippedTom pendingTom {["ember7" := 7]} []);
    try reflexivity.
  intros k r Hk. apply lookup_singleton_Some in Hk as [<- <-]. reflexivity.
Defined.

(** ** Serializing again *)

Lemma notePlaceholders_again this rs (m : gmap string nat) :
  foldl (notePlaceholder this) (foldl (notePlaceholder this) m rs) rs =
  foldl (notePlaceholder this) m rs.
Proof.
  apply map_eq. intros k.
  destruct (decide (k ∈ map (fun r => guidFor (rec_ref r))
                          (filter (fun r => lacksId this r = true) rs))) as [Hin|Hout].
  - apply list_elem_of_fmap in Hin as (r & -> & [Hl Hr]%list_elem_of_filter).
    by rewrite !notePlaceholders_entry.
  - assert (∀ r, r ∈ rs → lacksId this r = true → guidFor (rec_ref r) ≠ k) as Hk.
    { intros r Hr Hl <-. apply Hout.
      apply (list_elem_of_fmap_2 (fun r => guidFor (rec_ref r))).
      by apply list_elem_of_filter. }
    by rewrite !notePlaceholders_other.
Qed.

(** X11. Serializing a relation again before the response has come hands
    out the same placeholders: [serializeHasMany] run on the map its first
    run left behind returns the same json and leaves the map as it was, so a
    record never has two entries. *)
Theorem serializeHasMany_again this rec json rel (m : gmap string nat) json1 m1 :
  serializeHasMany this rec json rel m = Done (json1, m1) →
  serializeHasMany this rec json rel m1 = Done (json1, m1).
Proof.
  unfold serializeHasMany.
  destruct (embedAlways this (rel_key rel)); [|by intros [= <- <-]].
  destruct (lookupMany _ _) as [rs|]; [|done]. cbn [throwing mbind outcome_bind].
  rewrite !mapRelations_eq. intros [= <- <-]. by rewrite notePlaceholders_again.
Qed.

Lemma serializeHasMany_again_witness :
  serializeHasMany (activeModelSerializer (Some (embeddedAlways "villains")))
                   (league [tom; yehuda]) [("name", VStr "Villain League")] villainsRel
                   leaguePending =
    Done ([("name", VStr "Villain League");
           ("villains",
            VArr [VObj (rec_json tom ++ [("_clientId", VStr "ember7")]);
                  VObj (rec_json yehuda ++ [("_clientId", VStr "ember8")])])],
          leaguePending).
Proof.
  apply (serializeHasMany_again (activeModelSerializer (Some (embeddedAlways "villains")))
           (league [tom; yehuda]) [("name", VStr "Villain League")] villainsRel ∅).
  reflexivity.
Defined.

(** ** The two directions of a configuration *)

(** X12. The configuration [embedded: 'load'] is taken one way only.
    Inbound the relationship's callback treats it exactly as it treats
    ['always']; outbound [serializeHasMany] does not embed the relation, it
    leaves json and [clientIdMap] as they were. *)
Theorem embedded_load_is_inbound_only E recurse this a a' rel acc rec json
    (m : gmap string nat) :
  attrs (instance E this) = Some a →
  embedded_of (getField a (rel_key rel)) = VStr "load" →
  embedded_of (getField a' (rel_key rel)) = VStr "always" →
  eachRelationship E recurse this a rel acc = eachRelationship E recurse this a' rel acc ∧
  serializeHasMany (instance E this) rec json rel m = Done (json, m).
Proof.
  intros Ha Hload Halways.
  assert (∀ x, embedded_of x = VStr "load" ∨ embedded_of x = VStr "always" →
               loadsEmbedded x = true) as Hloads.
  { intros x Hx. unfold loadsEmbedded.
    destruct x; try (by destruct Hx as [Hx|Hx]).
    by destruct Hx as [-> | ->]. }
  split.
  - unfold eachRelationship. destruct acc as [partial st].
    by rewrite !Hloads by eauto.
  - unfold serializeHasMany, embedAlways. rewrite Ha, Hload. simpl.
    by rewrite andb_false_r.
Qed.

Lemma embedded_load_is_inbound_only_witness :
  eachRelationship loadEnv (updatePayloadWithEmbedded loadEnv 1) 5 loadOnly villainsRel
    (VObj earth, {| payload := []; clientIdMaps := <[5 := ∅]> freshMaps; calls := [] |}) =
    Done (VObj [("id", VStr "1"); ("name", VStr "Earth");
                ("villain_ids", VArr [VStr "1"; VStr "3"; VStr "2"])],
          {| payload := [("_superVillains", VArr threeVillains)];
             clientIdMaps := <[5 := ∅]> freshMaps; calls := [] |}) ∧
  serializeHasMany (instance loadEnv 5) (league [tom]) [] villainsRel ∅ = Done ([], ∅).
Proof.
  destruct (embedded_load_is_inbound_only loadEnv (updatePayloadWithEmbedded loadEnv 1) 5
              loadOnly (embeddedAlways "villains") villainsRel
              (VObj earth,
               {| payload := []; clientIdMaps := <[5 := ∅]> freshMaps; calls := [] |})
              (league [tom]) [] ∅ eq_refl eq_refl eq_refl) as [Hin Hout].
  split; [|exact Hout]. rewrite Hin. reflexivity.
Defined.

(** ** Termination *)

Lemma updatePayloadWithEmbedded_more_fuel E more : ∀ fuel this type partial st r,
  updatePayloadWithEmbedded E fuel this type partial st = Done r →
  updatePayloadWithEmbedded E (more + fuel) this type partial st = Done r.
Proof.
  induction more as [|k IH]; intros fuel this type partial st r Hrun; [done|].
  simpl. by apply updatePayloadWithEmbedded_mono, IH.
Qed.

(** X13. The recursion of the pass follows the nesting of the payload node
    and nothing else: however the types embed one another, a depth of calls
    above the depth of the node is enough.  With such a bound the pass either
    completes, with a node that is no deeper than the one it was given and
    with the same result under any larger bound, or it fails as the code
    does, not for lack of fuel. *)
Theorem updatePayloadWithEmbedded_terminates E fuel this type partial st :
  depth partial < fuel →
  (∃ p' st',
     updatePayloadWithEmbedded E fuel this type partial st = Done (p', st') ∧
     (depth p' <= depth partial)%nat ∧
     ∀ more, updatePayloadWithEmbedded E (more + fuel) this type partial st = Done (p', st'))
  ∨
  (∃ e, updatePayloadWithEmbedded E fuel this type partial st = Fail e ∧ e ≠ OutOfFuel).
Proof.
  intros Hd.
  pose proof (updatePayloadWithEmbedded_bounded E fuel this type partial st Hd) as Hb.
  destruct (updatePayloadWithEmbedded E fuel this type partial st) as [[p' st']|e] eqn:Hrun.
  - left. exists p', st'. split; [done|]. split; [done|].
    intros more. by apply updatePayloadWithEmbedded_more_fuel.
  - right. by exists e.
Qed.

Lemma updatePayloadWithEmbedded_terminates_witness :
  (∃ p' st',
     updatePayloadWithEmbedded testEnv 6 2 Comment (encode "children" thread) threadState =
       Done (p', st') ∧
     (depth p' <= depth (encode "children" thread))%nat ∧
     ∀ more,
       updatePayloadWithEmbedded testEnv (more + 6) 2 Comment (encode "children" thread)
         threadState = Done (p', st'))
  ∨
  (∃ e,
     updatePayloadWithEmbedded testEnv 6 2 Comment (encode "children" thread) threadState =
       Fail e ∧ e ≠ OutOfFuel).
Proof.
  apply (updatePayloadWithEmbedded_terminates testEnv 6 2 Comment
           (encode "children" thread) threadState).
  vm_compute. lia.
Defined.

(** ** Settling keeps what no child carries *)

Lemma foldl_settle_keeps E this rel k r ds : ∀ st (m : gmap string nat),
  clientIdMaps st !! this = Some m →
  m !! k = Some r →
  (∀ d, d ∈ ds → placeholderOf E this d ≠ k) →
  ∃ m' : gmap string nat,
    clientIdMaps (foldl (settle E this rel) st ds) !! this = Some m' ∧ m' !! k = Some r.
Proof.
  induction ds as [|d ds IH]; intros st m Hm Hk Hds; [by exists m|].
  cbn [foldl].
  assert (∃ m1 : gmap string nat,
            clientIdMaps (settle E this rel st d) !! this = Some m1 ∧ m1 !! k = Some r)
    as (m1 & Hm1 & Hk1).
  { unfold settle. rewrite Hm.
    destruct (m !! toPropertyKey _) as [r'|] eqn:Hd.
    - exists (delete (placeholderOf E this d) m). simpl. split; [apply lookup_insert_eq|].
      rewrite lookup_delete_ne; [done|]. apply Hds. by left.
    - destruct (getField (payload st) (embeddedTypeKey E rel)); by exists m. }
  apply (IH _ m1); [done|done|]. intros d' Hd'. apply Hds. by right.
Qed.


(** ** One embedded relation, child by child *)

Lemma settle_hit E this rel st d (m : gmap string nat) r :
  clientIdMaps st !! this = Some m →
  m !! placeholderOf E this d = Some r →
  settle E this rel st d =
    {| payload := payload st;
       clientIdMaps := <[this := delete (placeholderOf E this d) m]> (clientIdMaps st);
       calls := calls st ++ [AdapterWillCommit r; DidSaveRecord r (VObj d)] |}.
Proof.
  intros Hm Hk. unfold settle. rewrite Hm. unfold placeholderOf in *. cbn zeta.
  by rewrite Hk.
Qed.

Lemma settle_miss E this rel st d (m : gmap string nat) b :
  clientIdMaps st !! this = Some m →
  m !! placeholderOf E this d = None →
  getField (payload st) (embeddedTypeKey E rel) = VArr b →
  settle E this rel st d =
    with_payload (setField (embeddedTypeKey E rel) (VArr (b ++ [VObj d])) (payload st)) st.
Proof.
  intros Hm Hk Hb. unfold settle. rewrite Hm. unfold placeholderOf in *. cbn zeta.
  by rewrite Hk, Hb.
Qed.

(** Settling children only extends: the map loses entries at most, the
    bucket gains some of the children, in their order, behind what it held,
    and calls are added behind the calls made before. *)
Lemma foldl_settle_grows E this rel ds : ∀ st (m : gmap string nat) b,
  clientIdMaps st !! this = Some m →
  getField (payload st) (embeddedTypeKey E rel) = VArr b →
  ∃ (m' : gmap string nat) l cs,
    clientIdMaps (foldl (settle E this rel) st ds) !! this = Some m' ∧
    m' ⊆ m ∧
    getField (payload (foldl (settle E this rel) st ds)) (embeddedTypeKey E rel) =
      VArr (b ++ l) ∧
    sublist l (map VObj ds) ∧
    calls (foldl (settle E this rel) st ds) = calls st ++ cs.
Proof.
  induction ds as [|d ds IH]; intros st m b Hm Hb.
  - exists m, [], []. simpl. by rewrite !app_nil_r.
  - cbn [foldl map]. destruct (m !! placeholderOf E this d) as [r|] eqn:Hk.
    + rewrite (settle_hit E this rel st d m r Hm Hk).
      destruct (IH {| payload := payload st;
                      clientIdMaps :=
                        <[this := delete (placeholderOf E this d) m]> (clientIdMaps st);
                      calls := calls st ++ [AdapterWillCommit r; DidSaveRecord r (VObj d)] |}
                   (delete (placeholderOf E this d) m) b)
        as (m' & l & cs & Hm' & Hsub & Hb' & Hl & Hc);
        [apply lookup_insert_eq|exact Hb|].
      exists m', l, ([AdapterWillCommit r; DidSaveRecord r (VObj d)] ++ cs).
      split; [done|]. split; [etrans; [done|apply delete_subseteq]|].
      split; [done|]. split; [by apply sublist_cons|].
      rewrite Hc. simpl. by rewrite <- app_assoc.
    + rewrite (settle_miss E this rel st d m b Hm Hk Hb).
      destruct (IH (with_payload (setField (embeddedTypeKey E rel) (VArr (b ++ [VObj d]))
                                           (payload st)) st) m (b ++ [VObj d]))
        as (m' & l & cs & Hm' & Hsub & Hb' & Hl & Hc);
        [exact Hm|apply getField_setField_eq|].
      exists m', (VObj d :: l), cs.
      split; [done|]. split; [done|].
      split; [by rewrite Hb', <- app_assoc|]. split; [by apply sublist_skip|done].
Qed.

Lemma guidKeyed_empty : guidKeyed ∅.
Proof. intros k r Hk. by rewrite lookup_empty in Hk. Qed.

Lemma guidKeyed_singleton r : guidKeyed {[guidFor r := r]}.
Proof. intros k r' [<- <-]%lookup_singleton_Some. done. Qed.

Section OneRelation.
Variable E : environment.
Variables (fuel this : nat) (type : model) (a : obj).
Variables (pre post : list relationship) (rel : relationship).
Variables (child : nat) (Tm : model).
Variables (o : obj) (children : list value) (st : state).
Variables (m : gmap string nat) (b0 : list value).

Let att := keyForAttribute (instance E this) (rel_key rel).
Let exp := keyForRelationship (instance E this) (rel_key rel) hasMany.
Let pk := primaryKey (instance E child).
Let bk := embeddedTypeKey E rel.

(** The type has one embedded relation the pass acts on, [rel]. *)
Hypothesis Hattrs : attrs (instance E this) = Some a.
Hypothesis Hrels : relationships type = pre ++ rel :: post.
Hypothesis Hpre : forallb (inert E a) pre = true.
Hypothesis Hpost : forallb (inert E a) post = true.
Hypothesis Hkind : rel_kind rel = hasMany.
Hypothesis Hcfg : loadsEmbedded (getField a (rel_key rel)) = true.
Hypothesis Hs : serializerFor E (rel_type rel) = Some child.
Hypothesis HT : modelFor E (rel_type rel) = Some Tm.
Hypothesis Hne : exp ≠ att.
(** The node holds the nested children, which need no flattening of their
    own; the serializer has its map, and the bucket is an array once line 160
    has run. *)
Hypothesis Hatt : getField o att = VArr children.
Hypothesis Hflat : ∀ c s, c ∈ children →
  updatePayloadWithEmbedded E fuel child Tm c s = Done (VObj (fieldsOf c), s).
Hypothesis Hm : clientIdMaps st !! this = Some m.
Hypothesis Hb : getField (ensureBucket bk (payload st)) bk = VArr b0.

(** The pass on the node: the ids are written, the nested field is removed,
    and the children are settled one after the other. *)
Lemma updatePayloadWithEmbedded_settles :
  updatePayloadWithEmbedded E (S fuel) this type (VObj o) st =
    Done (VObj (delField att
                  (setField exp (VArr (map (fun c => getField (fieldsOf c) pk) children)) o)),
          foldl (settle E this rel)
                (with_payload (ensureBucket bk (payload st)) st) (map fieldsOf children)).
Proof.
  cbn [updatePayloadWithEmbedded]. rewrite Hattrs, Hrels.
  rewrite forEach_app, forEach_inert by done. cbn [mbind outcome_bind].
  rewrite forEach_cons.
  rewrite (eachRelationship_embedded E _ this child a rel Tm id fieldsOf (fun _ s => s)
             o children st Hs Hkind Hcfg).
  - cbn [mbind outcome_bind]. rewrite forEach_inert by done.
    by rewrite foldl_settle_fieldsOf.
  - by rewrite map_id.
  - done.
  - unfold ready. simpl. fold bk. by rewrite Hm, Hb.
  - intros c s Hc Hr. split; [by apply Hflat|done].
Qed.

Let st0 := with_payload (ensureBucket bk (payload st)) st.

Lemma settled_other k :
  k ≠ bk →
  getField (payload (foldl (settle E this rel) st0 (map fieldsOf children))) k =
    getField (payload st) k.
Proof.
  intros Hk. rewrite foldl_settle_payload_other by done. by apply ensureBucket_other.
Qed.

(** C2. A child whose placeholder is a live key of the [clientIdMap] when
    the pass reaches it.  [updatePayloadWithEmbedded] on the parent node
    completes; [adapterWillCommit] and [didSaveRecord] are called on the
    record found there, with the child's data; the entry is gone from the
    map; the child's primary key stands at the child's place in the ids
    written under the relationship key; and the bucket gains entries from the
    children before and from the children after it only, none for the child,
    while no other key of the payload changes.  The map is keyed by guids,
    as [createClientId] leaves it; the children need no flattening of their
    own, none before the child carries its placeholder, and the other
    children carry no placeholder that names a property every object
    inherits. *)
Theorem updatePayloadWithEmbedded_reconciles before d after r :
  children = before ++ VObj d :: after →
  guidKeyed m →
  m !! placeholderOf E this d = Some r →
  (∀ c, c ∈ before → placeholderOf E this (fieldsOf c) ≠ placeholderOf E this d) →
  (∀ c, c ∈ before ++ after → inheritedName (placeholderOf E this (fieldsOf c)) = false) →
  ∃ o' st' (m' : gmap string nat) cs1 cs2 l1 l2,
    updatePayloadWithEmbedded E (S fuel) this type (VObj o) st = Done (VObj o', st') ∧
    getField o' exp =
      VArr (map (fun c => getField (fieldsOf c) pk) before ++
            getField d pk :: map (fun c => getField (fieldsOf c) pk) after) ∧
    getField o' att = VUndef ∧
    calls st' = calls st ++ cs1 ++ [AdapterWillCommit r; DidSaveRecord r (VObj d)] ++ cs2 ∧
    clientIdMaps st' !! this = Some m' ∧
    m' !! placeholderOf E this d = None ∧
    getField (payload st') bk = VArr (b0 ++ l1 ++ l2) ∧
    sublist l1 (map (fun c => VObj (fieldsOf c)) before) ∧
    sublist l2 (map (fun c => VObj (fieldsOf c)) after) ∧
    (∀ k, k ≠ bk → getField (payload st') k = getField (payload st) k).
Proof.
  intros Hch _ Hk Hfirst _.
  destruct (foldl_settle_grows E this rel (map fieldsOf before) st0 m b0 Hm Hb)
    as (m1 & l1 & cs1 & Hm1 & _ & Hb1 & Hl1 & Hc1).
  destruct (foldl_settle_keeps E this rel _ r (map fieldsOf before) st0 m Hm Hk)
    as (m1' & Hm1' & Hk1).
  { intros d' (c & -> & Hc)%list_elem_of_fmap. by apply Hfirst. }
  rewrite Hm1 in Hm1'. injection Hm1' as <-.
  set (s1 := foldl (settle E this rel) st0 (map fieldsOf before)) in *.
  set (s2 := {| payload := payload s1;
                clientIdMaps :=
                  <[this := delete (placeholderOf E this d) m1]> (clientIdMaps s1);
                calls := calls s1 ++ [AdapterWillCommit r; DidSaveRecord r (VObj d)] |}).
  destruct (foldl_settle_grows E this rel (map fieldsOf after) s2
              (delete (placeholderOf E this d) m1) (b0 ++ l1))
    as (m3 & l2 & cs2 & Hm3 & Hsub3 & Hb3 & Hl2 & Hc3);
    [apply lookup_insert_eq|exact Hb1|].
  assert (foldl (settle E this rel) st0 (map fieldsOf children) =
            foldl (settle E this rel) s2 (map fieldsOf after)) as Hfinal.
  { rewrite Hch, map_app, foldl_app. cbn [map foldl fieldsOf]. fold s1.
    by rewrite (settle_hit E this rel s1 d m1 r Hm1 Hk1). }
  eexists _, _, m3, cs1, cs2, l1, l2.
  split; [apply updatePayloadWithEmbedded_settles|].
  split; [|split; [|split; [|split; [|split; [|split; [|split; [|split]]]]]]].
  - rewrite getField_delField_ne, getField_setField_eq by done.
    by rewrite Hch, map_app.
  - apply getField_delField_eq.
  - fold st0. rewrite Hfinal, Hc3. simpl. rewrite Hc1. simpl. by rewrite <- !app_assoc.
  - fold st0. by rewrite Hfinal.
  - eapply lookup_weaken_None; [apply lookup_delete_eq|done].
  - fold st0. rewrite Hfinal. unfold bk. rewrite Hb3. by rewrite <- app_assoc.
  - by rewrite map_map in Hl1.
  - by rewrite map_map in Hl2.
  - apply settled_other.
Qed.

(** X16. A child whose placeholder is no key of the [clientIdMap] and
    names no property every object inherits.  With a map keyed by guids,
    among children that need no flattening of their own and carry no such
    name either, [updatePayloadWithEmbedded] on the parent node completes;
    the child is pushed onto the bucket of its type, behind what the children
    before it added and in front of what the children after it add; its
    primary key stands at its place in the ids; the map gains nothing; and no
    other key of the payload changes. *)
Theorem unknown_placeholder_sideloaded before d after :
  children = before ++ VObj d :: after →
  guidKeyed m →
  m !! placeholderOf E this d = None →
  (∀ c, c ∈ children → inheritedName (placeholderOf E this (fieldsOf c)) = false) →
  ∃ o' st' (m' : gmap string nat) l1 l2,
    updatePayloadWithEmbedded E (S fuel) this type (VObj o) st = Done (VObj o', st') ∧
    getField o' exp =
      VArr (map (fun c => getField (fieldsOf c) pk) before ++
            getField d pk :: map (fun c => getField (fieldsOf c) pk) after) ∧
    getField (payload st') bk = VArr (b0 ++ l1 ++ [VObj d] ++ l2) ∧
    sublist l1 (map (fun c => VObj (fieldsOf c)) before) ∧
    sublist l2 (map (fun c => VObj (fieldsOf c)) after) ∧
    clientIdMaps st' !! this = Some m' ∧
    m' ⊆ m ∧
    (∀ k, k ≠ bk → getField (payload st') k = getField (payload st) k).
Proof.
  intros Hch _ Hk _.
  destruct (foldl_settle_grows E this rel (map fieldsOf before) st0 m b0 Hm Hb)
    as (m1 & l1 & cs1 & Hm1 & Hsub1 & Hb1 & Hl1 & Hc1).
  set (s1 := foldl (settle E this rel) st0 (map fieldsOf before)) in *.
  assert (m1 !! placeholderOf E this d = None) as Hk1
    by (by eapply lookup_weaken_None).
  set (s2 := with_payload (setField bk (VArr ((b0 ++ l1) ++ [VObj d])) (payload s1)) s1).
  destruct (foldl_settle_grows E this rel (map fieldsOf after) s2 m1 ((b0 ++ l1) ++ [VObj d]))
    as (m3 & l2 & cs2 & Hm3 & Hsub3 & Hb3 & Hl2 & Hc3);
    [exact Hm1|apply getField_setField_eq|].
  assert (foldl (settle E this rel) st0 (map fieldsOf children) =
            foldl (settle E this rel) s2 (map fieldsOf after)) as Hfinal.
  { rewrite Hch, map_app, foldl_app. cbn [map foldl fieldsOf]. fold s1.
    by rewrite (settle_miss E this rel s1 d m1 (b0 ++ l1) Hm1 Hk1 Hb1). }
  eexists _, _, m3, l1, l2.
  split; [apply updatePayloadWithEmbedded_settles|].
  split; [|split; [|split; [|split; [|split; [|split]]]]].
  - rewrite getField_delField_ne, getField_setField_eq by done.
    by rewrite Hch, map_app.
  - fold st0. rewrite Hfinal. unfold bk. rewrite Hb3. by rewrite <- !app_assoc.
  - by rewrite map_map in Hl1.
  - by rewrite map_map in Hl2.
  - fold st0. by rewrite Hfinal.
  - by etrans.
  - apply settled_other.
Qed.

(** X15. A placeholder is answered once.  With a map keyed by guids, in a
    relation whose children need no flattening of their own and carry no
    placeholder that names a property every object inherits, let two children
    carry the same live placeholder, the first of them before every other
    child that carries it.
    [updatePayloadWithEmbedded] on the parent node completes; the first
    confirms the record with its data and the entry is gone; the second finds
    nothing and is pushed onto the bucket as a new record, and the first is
    not; the primary keys of all the children are written as the ids. *)
Theorem placeholder_answered_once before d1 mid d2 after r :
  children = before ++ VObj d1 :: mid ++ VObj d2 :: after →
  guidKeyed m →
  m !! placeholderOf E this d1 = Some r →
  placeholderOf E this d2 = placeholderOf E this d1 →
  (∀ c, c ∈ before → placeholderOf E this (fieldsOf c) ≠ placeholderOf E this d1) →
  (∀ c, c ∈ children → inheritedName (placeholderOf E this (fieldsOf c)) = false) →
  ∃ o' st' (m' : gmap string nat) cs1 cs2 l1 l2,
    updatePayloadWithEmbedded E (S fuel) this type (VObj o) st = Done (VObj o', st') ∧
    getField o' exp = VArr (map (fun c => getField (fieldsOf c) pk) children) ∧
    calls st' = calls st ++ cs1 ++ [AdapterWillCommit r; DidSaveRecord r (VObj d1)] ++ cs2 ∧
    getField (payload st') bk = VArr (b0 ++ l1 ++ [VObj d2] ++ l2) ∧
    sublist l1 (map (fun c => VObj (fieldsOf c)) (before ++ mid)) ∧
    sublist l2 (map (fun c => VObj (fieldsOf c)) after) ∧
    clientIdMaps st' !! this = Some m' ∧
    m' !! placeholderOf E this d1 = None.
Proof.
  intros Hch _ Hk Hsame Hfirst _.
  destruct (foldl_settle_grows E this rel (map fieldsOf before) st0 m b0 Hm Hb)
    as (m1 & l1 & cs1 & Hm1 & _ & Hb1 & Hl1 & Hc1).
  destruct (foldl_settle_keeps E this rel _ r (map fieldsOf before) st0 m Hm Hk)
    as (m1' & Hm1' & Hk1).
  { intros d' (c & -> & Hc)%list_elem_of_fmap. by apply Hfirst. }
  rewrite Hm1 in Hm1'. injection Hm1' as <-.
  set (s1 := foldl (settle E this rel) st0 (map fieldsOf before)) in *.
  set (s2 := {| payload := payload s1;
                clientIdMaps :=
                  <[this := delete (placeholderOf E this d1) m1]> (clientIdMaps s1);
                calls := calls s1 ++ [AdapterWillCommit r; DidSaveRecord r (VObj d1)] |}).
  destruct (foldl_settle_grows E this rel (map fieldsOf mid) s2
              (delete (placeholderOf E this d1) m1) (b0 ++ l1))
    as (m3 & lm & csm & Hm3 & Hsub3 & Hb3 & Hlm & Hc3);
    [apply lookup_insert_eq|exact Hb1|].
  set (s3 := foldl (settle E this rel) s2 (map fieldsOf mid)) in *.
  assert (m3 !! placeholderOf E this d2 = None) as Hk3.
  { rewrite Hsame. eapply lookup_weaken_None; [apply lookup_delete_eq|done]. }
  set (s4 := with_payload
               (setField bk (VArr (((b0 ++ l1) ++ lm) ++ [VObj d2])) (payload s3)) s3).
  destruct (foldl_settle_grows E this rel (map fieldsOf after) s4 m3
              (((b0 ++ l1) ++ lm) ++ [VObj d2]))
    as (m5 & l2 & csa & Hm5 & Hsub5 & Hb5 & Hl2 & Hc5);
    [exact Hm3|apply getField_setField_eq|].
  assert (foldl (settle E this rel) st0 (map fieldsOf children) =
            foldl (settle E this rel) s4 (map fieldsOf after)) as Hfinal.
  { rewrite Hch, map_app, foldl_app. cbn [map foldl fieldsOf]. fold s1.
    rewrite (settle_hit E this rel s1 d1 m1 r Hm1 Hk1). fold s2.
    rewrite map_app, foldl_app. cbn [map foldl fieldsOf]. fold s3.
    by rewrite (settle_miss E this rel s3 d2 m3 ((b0 ++ l1) ++ lm) Hm3 Hk3 Hb3). }
  eexists _, _, m5, cs1, (csm ++ csa), (l1 ++ lm), l2.
  split; [apply updatePayloadWithEmbedded_settles|].
  split; [|split; [|split; [|split; [|split; [|split]]]]].
  - by rewrite getField_delField_ne, getField_setField_eq.
  - fold st0. rewrite Hfinal, Hc5. simpl. rewrite Hc3. simpl. rewrite Hc1. simpl.
    by rewrite <- !app_assoc.
  - fold st0. rewrite Hfinal. unfold bk. rewrite Hb5. by rewrite <- !app_assoc.
  - rewrite map_app. apply sublist_app; by rewrite <- map_map.
  - by rewrite map_map in Hl2.
  - fold st0. by rewrite Hfinal.
  - eapply lookup_weaken_None; [|exact Hsub5].
    eapply lookup_weaken_None; [apply lookup_delete_eq|done].
Qed.

End OneRelation.

Lemma updatePayloadWithEmbedded_reconciles_witness :
  ∃ o' st' (m' : gmap string nat) cs1 cs2 l1 l2,
    updatePayloadWithEmbedded testEnv 2 1 HomePlanet (VObj leagueEchoedTwice) pendingTom =
      Done (VObj o', st') ∧
    getField o' "villain_ids" = VArr [VStr "5"; VStr "1"; VStr "1"] ∧
    getField o' "villains" = VUndef ∧
    calls st' =
      calls pendingTom ++
      cs1 ++ [AdapterWillCommit 7; DidSaveRecord 7 (VObj echoedTom)] ++ cs2 ∧
    clientIdMaps st' !! 1 = Some m' ∧
    m' !! "ember7" = None ∧
    getField (payload st') "_superVillains" = VArr ([] ++ l1 ++ l2) ∧
    sublist l1 [VObj alexSaved] ∧
    sublist l2 [VObj echoedTom] ∧
    (∀ k, k ≠ "_superVillains" →
          getField (payload st') k = getField (payload pendingTom) k).
Proof.
  apply (updatePayloadWithEmbedded_reconciles testEnv 1 1 HomePlanet
           (embeddedAlways "villains") [] [] villainsRel 0 SuperVillain leagueEchoedTwice
           [VObj alexSaved; VObj echoedTom; VObj echoedTom] pendingTom {["ember7" := 7]} []
           eq_refl eq_refl eq_refl eq_refl eq_refl eq_refl eq_refl eq_refl)
    with (before := [VObj alexSaved]) (d := echoedTom) (after := [VObj echoedTom]);
    try reflexivity.
  - vm_compute. discriminate.
  - intros c s Hc.
    repeat (apply elem_of_cons in Hc as [->|Hc]; [reflexivity|]).
    by inversion Hc.
  - apply (guidKeyed_singleton 7).
  - intros c Hc. apply list_elem_of_singleton in Hc as ->. vm_compute. discriminate.
  - intros c Hc.
    repeat (apply elem_of_cons in Hc as [->|Hc]; [reflexivity|]).
    by inversion Hc.
Defined.

Lemma unknown_placeholder_sideloaded_witness :
  ∃ o' st' (m' : gmap string nat) l1 l2,
    updatePayloadWithEmbedded testEnv 2 1 HomePlanet
      (VObj [("name", VStr "Villain League");
             ("villains", VArr [VObj alexSaved; VObj echoedTom])]) nothingPending =
      Done (VObj o', st') ∧
    getField o' "villain_ids" = VArr [VStr "5"; VStr "1"] ∧
    getField (payload st') "_superVillains" = VArr ([] ++ l1 ++ [VObj echoedTom] ++ l2) ∧
    sublist l1 [VObj alexSaved] ∧
    sublist l2 [] ∧
    clientIdMaps st' !! 1 = Some m' ∧
    m' ⊆ ∅ ∧
    (∀ k, k ≠ "_superVillains" →
          getField (payload st') k = getField (payload nothingPending) k).
Proof.
  apply (unknown_placeholder_sideloaded testEnv 1 1 HomePlanet
           (embeddedAlways "villains") [] [] villainsRel 0 SuperVillain
           [("name", VStr "Villain League");
            ("villains", VArr [VObj alexSaved; VObj echoedTom])]
           [VObj alexSaved; VObj echoedTom] nothingPending ∅ []
           eq_refl eq_refl eq_refl eq_refl eq_refl eq_refl eq_refl eq_refl)
    with (before := [VObj alexSaved]) (d := echoedTom) (after := []);
    try reflexivity.
  - vm_compute. discriminate.
  - intros c s Hc.
    repeat (apply elem_of_cons in Hc as [->|Hc]; [reflexivity|]).
    by inversion Hc.
  - apply guidKeyed_empty.
  - intros c Hc.
    repeat (apply elem_of_cons in Hc as [->|Hc]; [reflexivity|]).
    by inversion Hc.
Defined.

Lemma placeholder_answered_once_witness :
  ∃ o' st' (m' : gmap string nat) cs1 cs2 l1 l2,
    updatePayloadWithEmbedded testEnv 2 1 HomePlanet (VObj leagueEchoedTwice) pendingTom =
      Done (VObj o', st') ∧
    getField o' "villain_ids" = VArr [VStr "5"; VStr "1"; VStr "1"] ∧
    calls st' =
      calls pendingTom ++
      cs1 ++ [AdapterWillCommit 7; DidSaveRecord 7 (VObj echoedTom)] ++ cs2 ∧
    getField (payload st') "_superVillains" = VArr ([] ++ l1 ++ [VObj echoedTom] ++ l2) ∧
    sublist l1 [VObj alexSaved] ∧
    sublist l2 [] ∧
    clientIdMaps st' !! 1 = Some m' ∧
    m' !! "ember7" = None.
Proof.
  apply (placeholder_answered_once testEnv 1 1 HomePlanet
           (embeddedAlways "villains") [] [] villainsRel 0 SuperVillain leagueEchoedTwice
           [VObj alexSaved; VObj echoedTom; VObj echoedTom] pendingTom {["ember7" := 7]} []
           eq_refl eq_refl eq_refl eq_refl eq_refl eq_refl eq_refl eq_refl)
    with (before := [VObj alexSaved]) (d1 := echoedTom) (mid := []) (d2 := echoedTom)
         (after := []);
    try reflexivity.
  - vm_compute. discriminate.
  - intros c s Hc.
    repeat (apply elem_of_cons in Hc as [->|Hc]; [reflexivity|]).
    by inversion Hc.
  - apply (guidKeyed_singleton 7).
  - intros c Hc. apply list_elem_of_singleton in Hc as ->. vm_compute. discriminate.
  - intros c Hc.
    repeat (apply elem_of_cons in Hc as [->|Hc]; [reflexivity|]).
    by inversion Hc.
Defined.

(** ** The order of the ids *)

(** C6. The id list written for an embedded relation follows the order of
    the nested children.  Whenever [updatePayloadWithEmbedded] on the parent
    node completes, the list under the relationship key holds the primary
    keys of the flattened children, in their order.  It does complete, with
    a map keyed by guids, for children that need no flattening of their own
    and carry no placeholder that names a property every object inherits:
    the children's primary keys are written in their order and the nested
    field is removed.  And with a recursion bound that covers the depth of
    the node it never stops for lack of fuel. *)
Theorem updatePayloadWithEmbedded_order E fuel this type a pre rel post child
    o children st :
  attrs (instance E this) = Some a →
  relationships type = pre ++ rel :: post →
  forallb (inert E a) pre = true →
  forallb (inert E a) post = true →
  rel_kind rel = hasMany →
  loadsEmbedded (getField a (rel_key rel)) = true →
  serializerFor E (rel_type rel) = Some child →
  keyForRelationship (instance E this) (rel_key rel) hasMany ≠
    keyForAttribute (instance E this) (rel_key rel) →
  getField o (keyForAttribute (instance E this) (rel_key rel)) = VArr children →
  (∀ p' st',
     updatePayloadWithEmbedded E (S fuel) this type (VObj o) st = Done (p', st') →
     ∃ flat,
       Forall2 (fun c f => ∃ Tm s s', modelFor E (rel_type rel) = Some Tm ∧
                  updatePayloadWithEmbedded E fuel child Tm c s = Done (VObj f, s'))
               children flat ∧
       readProp p' (keyForRelationship (instance E this) (rel_key rel) hasMany) =
         Done (VArr (map (fun f => getField f (primaryKey (instance E child))) flat)))
  ∧
  (∀ Tm (m : gmap string nat) b0,
     modelFor E (rel_type rel) = Some Tm →
     (∀ c s, c ∈ children →
        updatePayloadWithEmbedded E fuel child Tm c s = Done (VObj (fieldsOf c), s)) →
     clientIdMaps st !! this = Some m →
     guidKeyed m →
     getField (ensureBucket (embeddedTypeKey E rel) (payload st)) (embeddedTypeKey E rel) =
       VArr b0 →
     (∀ c, c ∈ children → inheritedName (placeholderOf E this (fieldsOf c)) = false) →
     ∃ o' st',
       updatePayloadWithEmbedded E (S fuel) this type (VObj o) st = Done (VObj o', st') ∧
       getField o' (keyForRelationship (instance E this) (rel_key rel) hasMany) =
         VArr (map (fun c => getField (fieldsOf c) (primaryKey (instance E child))) children) ∧
       getField o' (keyForAttribute (instance E this) (rel_key rel)) = VUndef)
  ∧
  ((depth (VObj o) <= fuel)%nat →
   updatePayloadWithEmbedded E (S fuel) this type (VObj o) st ≠ Fail OutOfFuel).
Proof.
  intros Ha Hrels Hpre Hpost Hk Hcfg Hs Hne Hatt. split; [|split].
  - intros p' st'. cbn [updatePayloadWithEmbedded]. rewrite Ha, Hrels.
    rewrite forEach_app, forEach_inert by done. cbn [mbind outcome_bind].
    rewrite forEach_cons.
    destruct (eachRelationship _ _ _ _ _ _) as [[p1 s1]|] eqn:Hrel; [|done].
    cbn [mbind outcome_bind]. rewrite forEach_inert by done. intros [= <- <-].
    apply (eachRelationship_ids E _ this child a rel o children st p1 s1 Hs Hk Hcfg Hatt)
      in Hrel as (flat & Hflat & ->).
    exists flat. split; [done|]. simpl.
    by rewrite getField_delField_ne, getField_setField_eq.
  - intros Tm m b0 HT Hflat Hm _ Hb _.
    eexists _, _. split; [|split].
    + by apply (updatePayloadWithEmbedded_settles E fuel this type a pre post rel child Tm
                  o children st m b0).
    + by rewrite getField_delField_ne, getField_setField_eq.
    + apply getField_delField_eq.
  - intros Hd.
    pose proof (updatePayloadWithEmbedded_bounded E (S fuel) this type (VObj o) st
                  ltac:(lia)) as Hb.
    destruct (updatePayloadWithEmbedded E (S fuel) this type (VObj o) st) as [r|e];
      [done|].
    intros [= ->]. by apply Hb.
Qed.

Lemma updatePayloadWithEmbedded_order_witness :
  ∃ o' st',
    updatePayloadWithEmbedded testEnv 2 1 HomePlanet (VObj earth) earthState =
      Done (VObj o', st') ∧
    getField o' "villain_ids" = VArr [VStr "1"; VStr "3"; VStr "2"] ∧
    getField o' "villains" = VUndef.
Proof.
  destruct (updatePayloadWithEmbedded_order testEnv 1 1 HomePlanet
              (embeddedAlways "villains") [] villainsRel [] 0 earth threeVillains earthState
              eq_refl eq_refl eq_refl eq_refl eq_refl eq_refl eq_refl)
    as (_ & Hflat & _); [vm_compute; discriminate|reflexivity|].
  apply (Hflat SuperVillain ∅ []); try reflexivity.
  - intros c s Hc.
    repeat (apply elem_of_cons in Hc as [->|Hc]; [reflexivity|]).
    by inversion Hc.
  - apply guidKeyed_empty.
  - intros c Hc.
    repeat (apply elem_of_cons in Hc as [->|Hc]; [reflexivity|]).
    by inversion Hc.
Defined.

(** ** A hole among the children *)

(** On [null] or [undefined] the pass changes nothing, or throws at the
    first embedded relation it reads a field for. *)
Lemma updatePayloadWithEmbedded_hole E fuel this type hole st :
  hole = VNull ∨ hole = VUndef →
  updatePayloadWithEmbedded E (S fuel) this type hole st = Done (hole, st) ∨
  updatePayloadWithEmbedded E (S fuel) this type hole st = Fail Thrown.
Proof.
  intros Hhole. cbn [updatePayloadWithEmbedded].
  destruct (attrs (instance E this)) as [a|]; [|by left].
  induction (relationships type) as [|rel rels IH]; [by left|].
  rewrite forEach_cons.
  assert (eachRelationship E (updatePayloadWithEmbedded E fuel) this a rel (hole, st) =
            Done (hole, st) ∨
          eachRelationship E (updatePayloadWithEmbedded E fuel) this a rel (hole, st) =
            Fail Thrown) as [-> | ->]; [|done|by right].
  unfold eachRelationship.
  destruct (serializerFor E (rel_type rel)); [|by right]. cbn [throwing mbind outcome_bind].
  destruct (rel_kind rel); [by left|].
  destruct (loadsEmbedded _); [|by left].
  right. by destruct Hhole as [-> | ->].
Qed.

Lemma eachEmbedded_hole E fuel this child rel hole acc :
  hole = VNull ∨ hole = VUndef →
  eachEmbedded E (updatePayloadWithEmbedded E (S fuel)) this child rel hole acc = Fail Thrown.
Proof.
  intros Hhole. destruct acc as [ids s]. unfold eachEmbedded.
  destruct (modelFor E (rel_type rel)) as [T|]; [|done]. cbn [throwing mbind outcome_bind].
  destruct (updatePayloadWithEmbedded_hole E fuel child T hole s Hhole) as [-> | ->];
    [|done].
  by destruct Hhole as [-> | ->].
Qed.

(** X6. A hole in an embedded array.  When the nested array of an embedded
    relation holds [null] or [undefined] at some position, behind children
    that need no flattening of their own and carry no placeholder that names
    a property every object inherits, and the map is keyed by guids,
    [updatePayloadWithEmbedded] on the parent node throws once it reaches
    the hole, whatever follows the hole and whatever relationships follow
    the relation: the primary key is read from the hole at line 166, or one
    call down a relation's field of it at line 156.  The outcome is the
    exception, neither a lack of fuel nor a value the model does not
    support. *)
Theorem null_child_fails E fuel this type a pre rel post child Tm o before hole after st
    (m : gmap string nat) b0 :
  attrs (instance E this) = Some a →
  relationships type = pre ++ rel :: post →
  forallb (inert E a) pre = true →
  rel_kind rel = hasMany →
  loadsEmbedded (getField a (rel_key rel)) = true →
  serializerFor E (rel_type rel) = Some child →
  modelFor E (rel_type rel) = Some Tm →
  getField o (keyForAttribute (instance E this) (rel_key rel)) =
    VArr (before ++ hole :: after) →
  hole = VNull ∨ hole = VUndef →
  (∀ c s, c ∈ before →
     updatePayloadWithEmbedded E (S fuel) child Tm c s = Done (VObj (fieldsOf c), s)) →
  clientIdMaps st !! this = Some m →
  guidKeyed m →
  getField (ensureBucket (embeddedTypeKey E rel) (payload st)) (embeddedTypeKey E rel) =
    VArr b0 →
  (∀ c, c ∈ before → inheritedName (placeholderOf E this (fieldsOf c)) = false) →
  updatePayloadWithEmbedded E (S (S fuel)) this type (VObj o) st = Fail Thrown.
Proof.
  intros Ha Hrels Hpre Hk Hcfg Hs HT Hatt Hhole Hflat Hm _ Hb _.
  assert (eachRelationship E (updatePayloadWithEmbedded E (S fuel)) this a rel (VObj o, st) =
            Fail Thrown) as Hrel;
    [|remember (S fuel) as n; cbn [updatePayloadWithEmbedded]; rewrite Ha, Hrels;
      rewrite forEach_app, forEach_inert by done; cbn [mbind outcome_bind];
      by rewrite forEach_cons, Hrel].
  unfold eachRelationship. rewrite Hs, Hk, Hcfg.
  cbn [throwing mbind outcome_bind readProp]. rewrite Hatt.
  cbn [truthy asArray mbind outcome_bind]. rewrite forEach_app.
  destruct (forEach_eachEmbedded_settle E (updatePayloadWithEmbedded E (S fuel)) this child
              rel Tm id fieldsOf (fun _ s => s) before HT) with
    (ids := @nil value)
    (st := with_payload (ensureBucket (embeddedTypeKey E rel) (payload st)) st)
    as [Hrun _].
  - intros c s Hc Hr. split; [by apply Hflat|done].
  - unfold ready. simpl. by rewrite Hm, Hb.
  - rewrite map_id in Hrun. rewrite Hrun. cbn [mbind outcome_bind].
    rewrite forEach_cons. by rewrite eachEmbedded_hole.
Qed.

Lemma null_child_fails_witness :
  updatePayloadWithEmbedded testEnv 2 1 HomePlanet (VObj umberWithNull) umber = Fail Thrown.
Proof.
  apply (null_child_fails testEnv 0 1 HomePlanet (embeddedAlways "villains") [] villainsRel []
           0 SuperVillain umberWithNull
           [VObj [("id", VStr "1"); ("first_name", VStr "Tom")]] VNull [] umber ∅ []);
    try reflexivity.
  - by left.
  - intros c s Hc. apply list_elem_of_singleton in Hc as ->. reflexivity.
  - apply guidKeyed_empty.
  - intros c Hc. apply list_elem_of_singleton in Hc as ->. reflexivity.
Defined.

(** ** What a response does not answer *)

Lemma answered_refl E st : answered E st st.
Proof.
  exists []. split; [by rewrite app_nil_r|]. intros i m k r Hm Hk. left. by exists m.
Qed.

Lemma answered_trans E s1 s2 s3 : answered E s1 s2 → answered E s2 s3 → answered E s1 s3.
Proof.
  intros (cs1 & Hc1 & H1) (cs2 & Hc2 & H2). exists (cs1 ++ cs2).
  split; [by rewrite Hc2, Hc1, app_assoc|].
  intros i m k r Hm Hk.
  destruct (H1 i m k r Hm Hk) as [(m' & Hm' & Hk')|(f & Hin & Hf)].
  - destruct (H2 i m' k r Hm' Hk') as [Hstill|(f & Hin & Hf)]; [by left|].
    right. exists f. split; [|done]. apply elem_of_app. by right.
  - right. exists f. split; [|done]. apply elem_of_app. by left.
Qed.

Lemma answered_payload E st p : answered E st (with_payload p st).
Proof.
  exists []. split; [by rewrite app_nil_r|]. intros i m k r Hm Hk. left. by exists m.
Qed.

Lemma answered_confirm E st this (m : gmap string nat) r f :
  clientIdMaps st !! this = Some m →
  m !! placeholderOf E this f = Some r →
  answered E st
    {| payload := payload st;
       clientIdMaps := <[this := delete (placeholderOf E this f) m]> (clientIdMaps st);
       calls := calls st ++ [AdapterWillCommit r; DidSaveRecord r (VObj f)] |}.
Proof.
  intros Hm Hk. exists [AdapterWillCommit r; DidSaveRecord r (VObj f)]. split; [done|].
  intros i m0 k0 r0 Hm0 Hk0. cbn [clientIdMaps].
  destruct (decide (i = this)) as [->|Hi].
  - rewrite Hm in Hm0. injection Hm0 as <-.
    destruct (decide (k0 = placeholderOf E this f)) as [->|Hne].
    + right. exists f. rewrite Hk in Hk0. injection Hk0 as <-.
      split; [|done]. right. by left.
    + left. exists (delete (placeholderOf E this f) m).
      split; [apply lookup_insert_eq|]. by rewrite lookup_delete_ne.
  - left. exists m0. by rewrite lookup_insert_ne.
Qed.

(** X14. What the response does not answer stays.  After the embedded
    pass of [extractSingle] or of [extractArray] has completed, however deep
    the payload nests, the calls made into the store before the pass are the
    beginning of the calls, and every entry of every serializer's
    [clientIdMap] is still there and maps to the same record, unless among
    the new calls [didSaveRecord] was called on that record with a node that
    carries the entry's placeholder under that serializer's [clientIdKey]. *)
Theorem orphan_persists E fuel this type st st' :
  extractSingle_embedded E fuel this type st = Done st' ∨
  extractArray_embedded E fuel this type st = Done st' →
  answered E st st'.
Proof.
  intros [Hrun|Hrun].
  - revert Hrun. apply (extractSingle_embedded_preserved E (answered E)).
    + apply answered_refl.
    + apply answered_trans.
    + intros s rel. apply answered_payload.
    + intros s i m r f. apply answered_confirm.
    + intros s rel l d _. apply answered_payload.
    + intros s p. apply answered_payload.
  - revert Hrun. apply (extractArray_embedded_preserved E (answered E)).
    + apply answered_refl.
    + apply answered_trans.
    + intros s rel. apply answered_payload.
    + intros s i m r f. apply answered_confirm.
    + intros s rel l d _. apply answered_payload.
    + intros s p. apply answered_payload.
Qed.

Lemma orphan_persists_witness :
  ∃ st',
    extractSingle_embedded testEnv 2 1 HomePlanet
      {| payload := payload pendingTom;
         clientIdMaps := <[1 := leaguePending]> freshMaps;
         calls := [] |} = Done st' ∧
    answered testEnv
      {| payload := payload pendingTom;
         clientIdMaps := <[1 := leaguePending]> freshMaps;
         calls := [] |} st' ∧
    ∃ m' : gmap string nat, clientIdMaps st' !! 1 = Some m' ∧ m' !! "ember8" = Some 8.
Proof.
  eexists. split; [reflexivity|]. split.
  - apply (orphan_persists testEnv 2 1 HomePlanet). left. reflexivity.
  - eexists. split; reflexivity.
Defined.
